(** * cs336_basics: tokenizers and the chunk boundary finder

    A shallow embedding of [cs336_basics/tokenizer.py] and of
    [find_chunk_boundaries] from [cs336_basics/pretokenization_example.py],
    with the properties the specification states about them.

    Python values are modelled as follows:
    - [int]   : [Z] (unbounded);
    - [bytes] : [list byte];
    - [str]   : [list Z], the sequence of code points ([ord] of each
                character); a Python [str] holds code points
                [0 .. 0x10FFFF], lone surrogates included;
    - [dict]  : [gmap];
    - a raised exception: [Raise e]; a loop that is cut off by its
                bound: [OutOfFuel] (proved unreachable below). *)

From Stdlib Require Import ZArith List Lia QArith.
From Stdlib Require Import Init.Byte Strings.Byte.
From stdpp Require Import base option list gmap sorting.

Local Open Scope Z_scope.

(** ** Exceptions and results *)

(** The class of the exception raised.  A constructor names the exact
    class; Python's class hierarchy is not modelled ([UnicodeEncodeError]
    and [UnicodeDecodeError] are subclasses of [ValueError] there), so a
    statement below says which class is raised, not which handlers catch
    it. *)
Inductive exn : Type :=
| ValueError
| TypeError
| IndexError
| ZeroDivisionError
| UnicodeEncodeError
| UnicodeDecodeError.

Inductive res (A : Type) : Type :=
| Ok (a : A)
| Raise (e : exn)
| OutOfFuel.

Arguments Ok {A} a.
Arguments Raise {A} e.
Arguments OutOfFuel {A}.

Definition bind {A B : Type} (m : res A) (k : A -> res B) : res B :=
  match m with
  | Ok a => k a
  | Raise e => Raise e
  | OutOfFuel => OutOfFuel
  end.

Declare Scope res_scope.
Delimit Scope res_scope with res.
Notation "'let*' x := m 'in' k" := (bind m (fun x => k))
  (at level 10, x pattern, m at level 100, k at level 200) : res_scope.
Local Open Scope res_scope.

Definition fails {A : Type} (m : res A) : Prop := exists e, m = Raise e.

(** ** Bytes *)

Definition bytes : Type := list byte.

(** [int(b)] for an element [b] of a [bytes] object. *)
Definition int_of_byte (b : byte) : Z := Z.of_N (Byte.to_N b).

(** The byte with value [z]; only used for [0 <= z < 256]. *)
Definition byte_of_int (z : Z) : byte :=
  match Byte.of_N (Z.to_N z) with
  | Some b => b
  | None => x00
  end.

#[global] Instance byte_eq_decision : EqDecision byte := Byte.byte_eq_dec.

(** [bytes(indices)]: every element must be in [range(256)]. *)
Fixpoint bytes_of_ints (indices : list Z) : res bytes :=
  match indices with
  | [] => Ok []
  | i :: rest =>
      if (0 <=? i) && (i <? 256)
      then let* bs := bytes_of_ints rest in Ok (byte_of_int i :: bs)
      else Raise ValueError
  end.

(** ** Strings and UTF-8 *)

Definition str : Type := list Z.

Definition is_code_point (c : Z) : Prop := 0 <= c <= 0x10FFFF.
Definition is_surrogate (c : Z) : Prop := 0xD800 <= c <= 0xDFFF.
Definition is_scalar (c : Z) : Prop := is_code_point c /\ ~ is_surrogate c.

(** A Python [str]; a valid Unicode string holds scalar values only. *)
Definition is_str (s : str) : Prop := Forall is_code_point s.
Definition valid_unicode (s : str) : Prop := Forall is_scalar s.

(** [ord] and [chr]; [chr] refuses an int that is no code point. *)
Definition ord (c : Z) : Z := c.
Definition chr (i : Z) : res Z :=
  if (0 <=? i) && (i <=? 0x10FFFF) then Ok i else Raise ValueError.

(** The UTF-8 form of one code point (RFC 3629); the strict encoder of
    [str.encode("utf-8")] refuses surrogates. *)
Definition utf8_encode_char (c : Z) : res bytes :=
  if c <? 0 then Raise UnicodeEncodeError
  else if c <? 0x80 then Ok [byte_of_int c]
  else if c <? 0x800 then
    Ok [byte_of_int (0xC0 + c / 64); byte_of_int (0x80 + c mod 64)]
  else if c <? 0x10000 then
    if (0xD800 <=? c) && (c <=? 0xDFFF) then Raise UnicodeEncodeError
    else Ok [byte_of_int (0xE0 + c / 4096);
             byte_of_int (0x80 + (c / 64) mod 64);
             byte_of_int (0x80 + c mod 64)]
  else if c <? 0x110000 then
    Ok [byte_of_int (0xF0 + c / 262144);
        byte_of_int (0x80 + (c / 4096) mod 64);
        byte_of_int (0x80 + (c / 64) mod 64);
        byte_of_int (0x80 + c mod 64)]
  else Raise UnicodeEncodeError.

(** [string.encode("utf-8")]. *)
Fixpoint str_encode_utf8 (s : str) : res bytes :=
  match s with
  | [] => Ok []
  | c :: rest =>
      let* b := utf8_encode_char c in
      let* bs := str_encode_utf8 rest in
      Ok (b ++ bs)
  end.

(** A continuation byte [10xxxxxx]. *)
Definition is_cont (x : Z) : bool := (0x80 <=? x) && (x <? 0xC0).

(** [string_bytes.decode("utf-8")]: the strict decoder.  It refuses a
    stray continuation byte, a truncated sequence, an overlong form, an
    encoded surrogate and a value above [0x10FFFF]. *)
Fixpoint bytes_decode_utf8 (bs : bytes) : res str :=
  match bs with
  | [] => Ok []
  | b0 :: t0 =>
      let x0 := int_of_byte b0 in
      if x0 <? 0x80 then
        let* s := bytes_decode_utf8 t0 in Ok (x0 :: s)
      else if x0 <? 0xC0 then Raise UnicodeDecodeError
      else
        match t0 with
        | [] => Raise UnicodeDecodeError
        | b1 :: t1 =>
            let x1 := int_of_byte b1 in
            if negb (is_cont x1) then Raise UnicodeDecodeError
            else if x0 <? 0xE0 then
              let c := (x0 - 0xC0) * 64 + (x1 - 0x80) in
              if c <? 0x80 then Raise UnicodeDecodeError
              else let* s := bytes_decode_utf8 t1 in Ok (c :: s)
            else
              match t1 with
              | [] => Raise UnicodeDecodeError
              | b2 :: t2 =>
                  let x2 := int_of_byte b2 in
                  if negb (is_cont x2) then Raise UnicodeDecodeError
                  else if x0 <? 0xF0 then
                    let c := (x0 - 0xE0) * 4096 + (x1 - 0x80) * 64
                             + (x2 - 0x80) in
                    if (c <? 0x800) || ((0xD800 <=? c) && (c <=? 0xDFFF))
                    then Raise UnicodeDecodeError
                    else let* s := bytes_decode_utf8 t2 in Ok (c :: s)
                  else
                    match t2 with
                    | [] => Raise UnicodeDecodeError
                    | b3 :: t3 =>
                        let x3 := int_of_byte b3 in
                        if negb (is_cont x3) then Raise UnicodeDecodeError
                        else
                          let c := (x0 - 0xF0) * 262144 + (x1 - 0x80) * 4096
                                   + (x2 - 0x80) * 64 + (x3 - 0x80) in
                          if (x0 <? 0xF8) && (0x10000 <=? c) && (c <=? 0x10FFFF)
                          then let* s := bytes_decode_utf8 t3 in Ok (c :: s)
                          else Raise UnicodeDecodeError
                    end
              end
        end
  end.

(** ** tokenizer.py *)

(** [BPETokenizerParams]: [vocab] maps an index to its bytes; [merges]
    lists [((index1, index2), new_index)] in the order they apply. *)
Record BPETokenizerParams : Type := {
  vocab : gmap Z bytes;
  merges : list ((Z * Z) * Z)
}.

Module CharacterTokenizer.
(** [list(map(ord, string))] *)
Definition encode (string : str) : res (list Z) := Ok (map ord string).

(** The join of [map(chr, indices)] on the empty string. *)
Fixpoint decode (indices : list Z) : res str :=
  match indices with
  | [] => Ok []
  | i :: rest =>
      let* c := chr i in
      let* s := decode rest in
      Ok (c :: s)
  end.
End CharacterTokenizer.

Module ByteTokenizer.
Definition encode (string : str) : res (list Z) :=
  let* string_bytes := str_encode_utf8 string in
  Ok (map int_of_byte string_bytes).

Definition decode (indices : list Z) : res str :=
  let* string_bytes := bytes_of_ints indices in
  bytes_decode_utf8 string_bytes.
End ByteTokenizer.

(** The [while i < len(indices)] loop of [merge]; [i] advances by at
    least one each turn, so [len(indices) - i] turns are enough. *)
Fixpoint merge_loop (fuel : nat) (indices : list Z) (pair : Z * Z)
    (new_index : Z) (i : nat) (new_indices : list Z) : res (list Z) :=
  if negb (i <? length indices)%nat then Ok new_indices
  else
    match fuel with
    | O => OutOfFuel
    | S fuel' =>
        match indices !! i with
        | None => Raise IndexError
        | Some x =>
            if (i + 1 <? length indices)%nat && (x =? fst pair)
               && (match indices !! (i + 1)%nat with
                   | Some y => y =? snd pair
                   | None => false
                   end)
            then merge_loop fuel' indices pair new_index (i + 2)
                   (new_indices ++ [new_index])
            else merge_loop fuel' indices pair new_index (i + 1)
                   (new_indices ++ [x])
        end
    end.

Definition merge (indices : list Z) (pair : Z * Z) (new_index : Z)
    : res (list Z) :=
  merge_loop (length indices) indices pair new_index 0 [].

(** The same loop with a counter in place of the list built: the number
    of turns that take the replacement branch. *)
Fixpoint merge_loop_replaced (fuel : nat) (indices : list Z) (pair : Z * Z)
    (i : nat) (replaced : nat) : res nat :=
  if negb (i <? length indices)%nat then Ok replaced
  else
    match fuel with
    | O => OutOfFuel
    | S fuel' =>
        match indices !! i with
        | None => Raise IndexError
        | Some x =>
            if (i + 1 <? length indices)%nat && (x =? fst pair)
               && (match indices !! (i + 1)%nat with
                   | Some y => y =? snd pair
                   | None => false
                   end)
            then merge_loop_replaced fuel' indices pair (i + 2) (S replaced)
            else merge_loop_replaced fuel' indices pair (i + 1) replaced
        end
    end.

Definition merge_replaced (indices : list Z) (pair : Z * Z) : res nat :=
  merge_loop_replaced (length indices) indices pair 0 0.

(** [sep.join(items)] on bytes: an item that is not a bytes object
    ([None] here) raises [TypeError]. *)
Fixpoint bytes_join (sep : bytes) (items : list (option bytes)) : res bytes :=
  match items with
  | [] => Ok []
  | None :: _ => Raise TypeError
  | Some b :: rest =>
      let* r := bytes_join sep rest in
      Ok (match rest with [] => b | _ :: _ => b ++ sep ++ r end)
  end.

Module BytePairEncodingTokenizer.
(** The [for pair, new_index in self.params.merges] loop. *)
Fixpoint encode_loop (rules : list ((Z * Z) * Z)) (indices : list Z)
    : res (list Z) :=
  match rules with
  | [] => Ok indices
  | rule :: rest =>
      let pair := fst rule in
      let new_index := snd rule in
      let* indices := merge indices pair new_index in
      encode_loop rest indices
  end.

Definition encode (params : BPETokenizerParams) (string : str)
    : res (list Z) :=
  let* string_bytes := str_encode_utf8 string in
  encode_loop (merges params) (map int_of_byte string_bytes).

(** [vocab.get] gives [None] for an absent index; the join is on the
    empty separator. *)
Definition decode (params : BPETokenizerParams) (indices : list Z)
    : res str :=
  let bytes_list := map (fun i => vocab params !! i) indices in
  let* joined := bytes_join [] bytes_list in
  bytes_decode_utf8 joined.
End BytePairEncodingTokenizer.

(** [num_bytes / num_tokens]: true division of two ints raises
    [ZeroDivisionError] on a zero divisor; the float it returns is the
    quotient, kept exact here as a rational. *)
Definition true_div (a b : Z) : res Q :=
  if b =? 0 then Raise ZeroDivisionError
  else Ok (inject_Z a / inject_Z b)%Q.

Definition get_compression_ratio (string : str) (indices : list Z) : res Q :=
  let* string_bytes := str_encode_utf8 string in
  let num_bytes := Z.of_nat (length string_bytes) in
  let num_tokens := Z.of_nat (length indices) in
  true_div num_bytes num_tokens.

(** ** pretokenization_example.py *)

(** A seekable binary file: its bytes and the current position. *)
Record file : Type := { content : bytes; pos : nat }.

(** [file.seek(0, os.SEEK_END)] *)
Definition seek_end (f : file) : file :=
  {| content := content f; pos := length (content f) |}.

(** [file.tell()] *)
Definition tell (f : file) : Z := Z.of_nat (pos f).

(** [file.seek(offset)]: a negative offset is refused. *)
Definition seek (f : file) (offset : Z) : res file :=
  if offset <? 0 then Raise ValueError
  else Ok {| content := content f; pos := Z.to_nat offset |}.

(** [file.read(n)]: the next [n] bytes from the position, fewer only
    where the file ends, and the position moves past them; the empty
    bytes object at the end of the file. *)
Definition read (f : file) (n : nat) : bytes * file :=
  let chunk := take n (drop (pos f) (content f)) in
  (chunk, {| content := content f; pos := (pos f + length chunk)%nat |}).

(** [needle] is at the start of [hay]. *)
Fixpoint starts_with (hay needle : bytes) : bool :=
  match needle, hay with
  | [], _ => true
  | _ :: _, [] => false
  | n :: ns, h :: hs => Byte.eqb n h && starts_with hs ns
  end.

Fixpoint find_from (hay needle : bytes) (i : Z) : Z :=
  if starts_with hay needle then i
  else
    match hay with
    | [] => -1
    | _ :: rest => find_from rest needle (i + 1)
    end.

(** [hay.find(needle)]: the lowest offset of [needle] in [hay], or -1. *)
Definition bytes_find (hay needle : bytes) : Z := find_from hay needle 0.

(** [range(lo, hi)] *)
Definition py_range (lo hi : Z) : list Z := seqZ lo (hi - lo).

(** [a // b] *)
Definition floor_div (a b : Z) : res Z :=
  if b =? 0 then Raise ZeroDivisionError else Ok (a / b).

(** [l[-1] = v] *)
Definition set_last (l : list Z) (v : Z) : res (list Z) :=
  match l with
  | [] => Raise IndexError
  | _ :: _ => Ok (<[(length l - 1)%nat := v]> l)
  end.

(** [l[i]] for [i >= 0] *)
Definition get_item (l : list Z) (i : Z) : res Z :=
  match l !! Z.to_nat i with
  | Some v => Ok v
  | None => Raise IndexError
  end.

(** [sorted(set(l))] *)
Definition sorted_set (l : list Z) : list Z := merge_sort Z.le (remove_dups l).

Definition mini_chunk_size : nat := 4096.

(** The [while True] loop for one boundary: the boundary found and the
    file after the reads. *)
Fixpoint snap_loop (fuel : nat) (f : file) (split_special_token : bytes)
    (file_size initial_position : Z) : res (Z * file) :=
  match fuel with
  | O => OutOfFuel
  | S fuel' =>
      let '(mini_chunk, f) := read f mini_chunk_size in
      if decide (mini_chunk = []) then Ok (file_size, f)
      else
        let found_at := bytes_find mini_chunk split_special_token in
        if negb (found_at =? -1) then Ok (initial_position + found_at, f)
        else snap_loop fuel' f split_special_token file_size
               (initial_position + Z.of_nat mini_chunk_size)
  end.

(** The [for bi in range(1, len(chunk_boundaries) - 1)] loop. *)
Fixpoint boundaries_loop (fuel : nat) (bis : list Z) (f : file)
    (split_special_token : bytes) (file_size : Z)
    (chunk_boundaries : list Z) : res (list Z * file) :=
  match bis with
  | [] => Ok (chunk_boundaries, f)
  | bi :: rest =>
      let* initial_position := get_item chunk_boundaries bi in
      let* f := seek f initial_position in
      let* (b, f) :=
        snap_loop fuel f split_special_token file_size initial_position in
      boundaries_loop fuel rest f split_special_token file_size
        (<[Z.to_nat bi := b]> chunk_boundaries)
  end.

(** [find_chunk_boundaries]; the delimiter is a bytes object, so the
    [isinstance] assertion holds.  Each [while True] loop is given
    [len(file) + 1] turns. *)
Definition find_chunk_boundaries (f : file) (desired_num_chunks : Z)
    (split_special_token : bytes) : res (list Z) :=
  let f := seek_end f in
  let file_size := tell f in
  let* f := seek f 0 in
  let* chunk_size := floor_div file_size desired_num_chunks in
  let chunk_boundaries :=
    map (fun i => i * chunk_size) (py_range 0 (desired_num_chunks + 1)) in
  let* chunk_boundaries := set_last chunk_boundaries file_size in
  let* (chunk_boundaries, _) :=
    boundaries_loop (S (length (content f)))
      (py_range 1 (Z.of_nat (length chunk_boundaries) - 1))
      f split_special_token file_size chunk_boundaries in
  Ok (sorted_set chunk_boundaries).

(** The file holding [b], freshly opened. *)
Definition open (b : bytes) : file := {| content := b; pos := 0 |}.

(** [delim] occurs in [b] at offset [p]. *)
Definition occurs_at (b delim : bytes) (p : Z) : Prop :=
  0 <= p /\ take (length delim) (drop (Z.to_nat p) b) = delim.

(** ** Reference definitions *)

(** The replacement pass in the words of the specification: scan left to
    right; where two adjacent elements equal [(left, right)], put
    [new_id] and resume two places on; otherwise keep the element and
    resume one place on. *)
Fixpoint replace_pass (left right new_id : Z) (ids : list Z) : list Z :=
  match ids with
  | [] => []
  | x :: tl =>
      match tl with
      | [] => [x]
      | y :: rest =>
          if (x =? left) && (y =? right)
          then new_id :: replace_pass left right new_id rest
          else x :: replace_pass left right new_id tl
      end
  end.

(** The number of matches such a pass replaces. *)
Fixpoint count_replaced (left right : Z) (ids : list Z) : nat :=
  match ids with
  | [] => O
  | x :: tl =>
      match tl with
      | [] => O
      | y :: rest =>
          if (x =? left) && (y =? right)
          then S (count_replaced left right rest)
          else count_replaced left right tl
      end
  end.

(** One pass per rule, in list order, each on the result of the one
    before. *)
Definition apply_rules (rules : list ((Z * Z) * Z)) (ids : list Z) : list Z :=
  fold_left
    (fun cur rule => replace_pass (fst (fst rule)) (snd (fst rule)) (snd rule) cur)
    rules ids.

(** What the loop for one boundary may answer from the guess [g]: the
    file length, or the offset of an occurrence of the delimiter at or
    after [g]. *)
Definition snapped (c delim : bytes) (g b : Z) : Prop :=
  b = Z.of_nat (length c) \/
  (g <= b < Z.of_nat (length c) /\ occurs_at c delim b).

(** The uniformly spaced guesses, the last one forced to the file
    length. *)
Definition naive_boundaries (file_size k : Z) : list Z :=
  <[Z.to_nat k := file_size]>
    (map (fun i => i * (file_size / k)) (py_range 0 (k + 1))).

(** The failure the specification asks for on an id that the vocabulary
    lacks: an error of the decoder's own for the unknown id, rather than
    the [TypeError] of the join. *)
Definition unknown_token_failure (r : res str) : Prop :=
  exists e, r = Raise e /\ e <> TypeError.

(** The policy the specification asks for on an empty id sequence: the
    value 0, or an error of the utility's own rather than the division's
    [ZeroDivisionError]. *)
Definition explicit_empty_policy (r : res Q) : Prop :=
  (exists q, r = Ok q /\ (q == 0)%Q) \/
  (exists e, r = Raise e /\ e <> ZeroDivisionError).

(** The pair [(a, b)] occurs at two adjacent places of [ids]. *)
Definition adjacent (a b : Z) (ids : list Z) : Prop :=
  exists i : nat, ids !! i = Some a /\ ids !! (S i) = Some b.

(** A vocabulary agrees with a merge rule when it holds both ids of the
    pair and gives the new id their bytes, joined. *)
Definition rule_in_vocab (v : gmap Z bytes) (rule : (Z * Z) * Z) : Prop :=
  exists va vb,
    v !! (fst (fst rule)) = Some va /\ v !! (snd (fst rule)) = Some vb /\
    v !! (snd rule) = Some (va ++ vb).

(** [file.read(n)] for an int [n]: a negative [n] reads to the end of
    the file. *)
Definition read_int (f : file) (n : Z) : bytes * file :=
  if n <? 0 then read f (length (content f)) else read f (Z.to_nat n).

(** [zip(boundaries[:-1], boundaries[1:])], the pairs that the loop of
    [main] goes through. *)
Definition chunk_ranges (boundaries : list Z) : list (Z * Z) :=
  zip (removelast boundaries) (tail boundaries).

(** [f.seek(start)] then [f.read(end - start)] in the loop of [main]:
    the bytes of one chunk. *)
Definition read_chunk (f : file) (start end_ : Z) : res bytes :=
  let* f := seek f start in
  Ok (fst (read_int f (end_ - start))).

(** The bytes of [c] from offset [lo] up to [hi], as [c[lo:hi]]. *)
Definition slice (c : bytes) (lo hi : Z) : bytes :=
  take (Z.to_nat (hi - lo)) (drop (Z.to_nat lo) c).

(** ** Sample inputs *)

(** A vocabulary with [h] at 0 and the two bytes of [e-acute] at 256. *)
Definition sample_params : BPETokenizerParams :=
  {| vocab := {[ 0 := [x68]; 256 := [xc3; xa9] ]}; merges := [] |}.

(** The bytes of [AAA<>BBB<>CCC]. *)
Definition sample_source : bytes :=
  [x41; x41; x41; x3c; x3e; x42; x42; x42; x3c; x3e; x43; x43; x43].

(** A file of 8192 bytes [a] followed by the delimiter [XY]: with two
    chunks the guess is 4097, and the delimiter at 8192 lies across the
    end of the first window read, [4097, 8193). *)
Definition straddling_source : bytes :=
  repeat x61 (Z.to_nat 8192) ++ [x58; x59].

(** ** Tactics *)

Ltac divmod := Z.div_mod_to_equations; lia.

Ltac bool_hyps :=
  repeat match goal with
  | H : negb _ = false |- _ => apply negb_false_iff in H
  | H : negb _ = true |- _ => apply negb_true_iff in H
  | H : (_ && _)%bool = true |- _ => apply andb_true_iff in H; destruct H
  | H : (_ || _)%bool = false |- _ => apply orb_false_iff in H; destruct H
  | H : (_ <? _) = true |- _ => apply Z.ltb_lt in H
  | H : (_ <? _) = false |- _ => apply Z.ltb_ge in H
  | H : (_ <=? _) = true |- _ => apply Z.leb_le in H
  | H : (_ <=? _) = false |- _ => apply Z.leb_gt in H
  end.

(** * Properties *)

(** ** Evaluation on samples *)

Example utf8_euro : str_encode_utf8 [0x20AC] = Ok [xe2; x82; xac].
Proof. reflexivity. Qed.
Example utf8_euro_back : bytes_decode_utf8 [xe2; x82; xac] = Ok [0x20AC].
Proof. reflexivity. Qed.
Example utf8_emoji : str_encode_utf8 [0x1F600] = Ok [xf0; x9f; x98; x80].
Proof. reflexivity. Qed.
Example utf8_overlong : bytes_decode_utf8 [xc0; x80] = Raise UnicodeDecodeError.
Proof. reflexivity. Qed.
Example utf8_surrogate : str_encode_utf8 [0xD800] = Raise UnicodeEncodeError.
Proof. reflexivity. Qed.

Example merge_555 : merge [5; 5; 5] (5, 5) 9 = Ok [9; 5].
Proof. reflexivity. Qed.
Example ratio_hello :
  get_compression_ratio [104; 101; 108; 108; 111] [1; 2] = Ok (5 # 2)%Q.
Proof. reflexivity. Qed.

Example boundaries_sep :
  find_chunk_boundaries
    (open [x41; x41; x41; x3c; x3e; x42; x42; x42; x3c; x3e; x43; x43; x43])
    2 [x3c; x3e] = Ok [0; 8; 13].
Proof. reflexivity. Qed.

(** ** The merge pass *)

Section MergePass.
Variables (left right new_id : Z).

Lemma replace_pass_two x y rest :
  replace_pass left right new_id (x :: y :: rest) =
  if (x =? left) && (y =? right)
  then new_id :: replace_pass left right new_id rest
  else x :: replace_pass left right new_id (y :: rest).
Proof. reflexivity. Qed.

Lemma count_replaced_two x y rest :
  count_replaced left right (x :: y :: rest) =
  if (x =? left) && (y =? right)
  then S (count_replaced left right rest)
  else count_replaced left right (y :: rest).
Proof. reflexivity. Qed.

(** Induction two elements at a time, as the pass consumes them. *)
Lemma list_pair_ind (P : list Z -> Prop) :
  P [] -> (forall x, P [x]) ->
  (forall x y rest, P rest -> P (y :: rest) -> P (x :: y :: rest)) ->
  forall l, P l.
Proof.
  intros Hnil Hone Hstep l.
  assert (H : P l /\ forall x, P (x :: l)); [|tauto].
  induction l as [|y l [IH1 IH2]]; split; auto.
Qed.

Lemma replace_pass_length ids :
  (length (replace_pass left right new_id ids)
   + count_replaced left right ids = length ids)%nat.
Proof.
  induction ids as [|x|x y rest IH1 IH2] using list_pair_ind; try reflexivity.
  rewrite replace_pass_two, count_replaced_two.
  destruct ((x =? left) && (y =? right)); simpl in *; lia.
Qed.

Lemma merge_loop_unfold fuel indices pair i acc :
  merge_loop (S fuel) indices pair new_id i acc =
  if negb (i <? length indices)%nat then Ok acc
  else
    match indices !! i with
    | None => Raise IndexError
    | Some x =>
        if (i + 1 <? length indices)%nat && (x =? fst pair)
           && (match indices !! (i + 1)%nat with
               | Some y => y =? snd pair
               | None => false
               end)
        then merge_loop fuel indices pair new_id (i + 2) (acc ++ [new_id])
        else merge_loop fuel indices pair new_id (i + 1) (acc ++ [x])
    end.
Proof. reflexivity. Qed.

(** The loop of [merge], from index [i] with [acc] already built. *)
Lemma merge_loop_pass fuel : forall indices i acc,
  (length indices - i <= fuel)%nat ->
  merge_loop fuel indices (left, right) new_id i acc =
  Ok (acc ++ replace_pass left right new_id (drop i indices)).
Proof.
  induction fuel as [|fuel IH]; intros indices i acc Hfuel.
  - unfold merge_loop. destruct (Nat.ltb_spec i (length indices)); [lia|].
    rewrite drop_ge by lia. now rewrite app_nil_r.
  - rewrite merge_loop_unfold.
    destruct (Nat.ltb_spec i (length indices)) as [Hi|Hi]; cbn [negb].
    2: { rewrite drop_ge by lia. now rewrite app_nil_r. }
    destruct (lookup_lt_is_Some_2 indices i Hi) as [x Hx].
    rewrite Hx, (drop_S _ _ _ Hx). cbn [fst snd].
    destruct (Nat.ltb_spec (i + 1) (length indices)) as [Hi1|Hi1].
    + destruct (lookup_lt_is_Some_2 indices (i + 1) Hi1) as [y Hy].
      rewrite Hy. replace (S i) with (i + 1)%nat by lia.
      rewrite (drop_S _ _ _ Hy), replace_pass_two. cbn [andb].
      destruct ((x =? left) && (y =? right)).
      * rewrite IH by lia. rewrite <- app_assoc.
        now replace (S (i + 1)) with (i + 2)%nat by lia.
      * rewrite IH by lia. rewrite <- app_assoc.
        now rewrite (drop_S _ _ _ Hy).
    + cbn [andb]. rewrite IH by lia. rewrite <- app_assoc.
      replace (S i) with (i + 1)%nat by lia.
      now rewrite (drop_ge indices (i + 1)) by lia.
Qed.

Lemma merge_is_pass indices :
  merge indices (left, right) new_id =
  Ok (replace_pass left right new_id indices).
Proof.
  unfold merge. rewrite merge_loop_pass by lia. now rewrite drop_0.
Qed.
Lemma merge_loop_replaced_count fuel : forall indices i n,
  (length indices - i <= fuel)%nat ->
  merge_loop_replaced fuel indices (left, right) i n =
  Ok (n + count_replaced left right (drop i indices))%nat.
Proof.
  induction fuel as [|fuel IH]; intros indices i n Hfuel.
  - unfold merge_loop_replaced.
    destruct (Nat.ltb_spec i (length indices)); [lia|].
    rewrite drop_ge by lia. simpl. now rewrite Nat.add_0_r.
  - cbn [merge_loop_replaced].
    destruct (Nat.ltb_spec i (length indices)) as [Hi|Hi]; cbn [negb].
    2: { rewrite drop_ge by lia. simpl. now rewrite Nat.add_0_r. }
    destruct (lookup_lt_is_Some_2 indices i Hi) as [x Hx].
    rewrite Hx, (drop_S _ _ _ Hx). cbn [fst snd].
    destruct (Nat.ltb_spec (i + 1) (length indices)) as [Hi1|Hi1].
    + destruct (lookup_lt_is_Some_2 indices (i + 1) Hi1) as [y Hy].
      rewrite Hy. replace (S i) with (i + 1)%nat by lia.
      rewrite (drop_S _ _ _ Hy), count_replaced_two. cbn [andb].
      destruct ((x =? left) && (y =? right)).
      * rewrite IH by lia.
        replace (S (i + 1)) with (i + 2)%nat by lia. f_equal. lia.
      * rewrite IH by lia. now rewrite (drop_S _ _ _ Hy).
    + cbn [andb]. rewrite IH by lia.
      replace (S i) with (i + 1)%nat by lia.
      now rewrite (drop_ge indices (i + 1)) by lia.
Qed.

Lemma merge_replaced_count indices :
  merge_replaced indices (left, right) = Ok (count_replaced left right indices).
Proof.
  unfold merge_replaced. rewrite merge_loop_replaced_count by lia.
  now rewrite drop_0.
Qed.
End MergePass.

Lemma encode_loop_rules rules : forall ids,
  BytePairEncodingTokenizer.encode_loop rules ids = Ok (apply_rules rules ids).
Proof.
  induction rules as [|[[l r] n] rules IH]; intros ids; [reflexivity|].
  simpl. rewrite merge_is_pass. simpl. apply IH.
Qed.

Lemma apply_rules_length rules : forall ids,
  (length (apply_rules rules ids) <= length ids)%nat.
Proof.
  induction rules as [|[[l r] n] rules IH]; intros ids; [simpl; lia|].
  simpl. etransitivity; [apply IH|].
  pose proof (replace_pass_length l r n ids). simpl. lia.
Qed.

(** ** Bytes and UTF-8 *)

Lemma int_of_byte_range b : 0 <= int_of_byte b <= 255.
Proof.
  unfold int_of_byte. pose proof (Byte.to_N_bounded b). lia.
Qed.

Lemma byte_of_int_of_byte b : byte_of_int (int_of_byte b) = b.
Proof.
  unfold byte_of_int, int_of_byte. now rewrite N2Z.id, Byte.of_to_N.
Qed.

Lemma int_of_byte_of_int z : 0 <= z < 256 -> int_of_byte (byte_of_int z) = z.
Proof.
  intros Hz. unfold byte_of_int, int_of_byte.
  destruct (Byte.of_N (Z.to_N z)) as [b|] eqn:E.
  - apply Byte.to_of_N in E. lia.
  - apply Byte.of_N_None_iff in E. lia.
Qed.

Lemma ints_of_bytes_range (bs : bytes) :
  Forall (fun id => 0 <= id <= 255) (map int_of_byte bs).
Proof.
  induction bs as [|b bs IH]; constructor; [apply int_of_byte_range|exact IH].
Qed.

Lemma bytes_of_ints_of_bytes (bs : bytes) :
  bytes_of_ints (map int_of_byte bs) = Ok bs.
Proof.
  induction bs as [|b bs IH]; [reflexivity|].
  simpl. pose proof (int_of_byte_range b) as Hb.
  destruct (Z.leb_spec 0 (int_of_byte b)); [|lia].
  destruct (Z.ltb_spec (int_of_byte b) 256); [|lia].
  simpl. now rewrite IH, byte_of_int_of_byte.
Qed.

Lemma is_cont_true x : 0x80 <= x < 0xC0 -> is_cont x = true.
Proof.
  intros Hx. unfold is_cont.
  apply andb_true_iff; split; [apply Z.leb_le|apply Z.ltb_lt]; lia.
Qed.

Lemma is_cont_inv x : is_cont x = true -> 0x80 <= x < 0xC0.
Proof. unfold is_cont. intros H. bool_hyps. lia. Qed.

Lemma decode_one b0 t :
  int_of_byte b0 < 0x80 ->
  bytes_decode_utf8 (b0 :: t) =
  let* s := bytes_decode_utf8 t in Ok (int_of_byte b0 :: s).
Proof.
  intros H. cbn [bytes_decode_utf8].
  now destruct (Z.ltb_spec (int_of_byte b0) 0x80); [|lia].
Qed.

Lemma decode_two b0 b1 t x0 x1 :
  x0 = int_of_byte b0 -> x1 = int_of_byte b1 ->
  0xC0 <= x0 < 0xE0 -> 0x80 <= x1 < 0xC0 ->
  0x80 <= (x0 - 0xC0) * 64 + (x1 - 0x80) ->
  bytes_decode_utf8 (b0 :: b1 :: t) =
  let* s := bytes_decode_utf8 t in
  Ok ((x0 - 0xC0) * 64 + (x1 - 0x80) :: s).
Proof.
  intros -> -> H0 H1 Hc. cbn [bytes_decode_utf8].
  rewrite (is_cont_true _ H1). cbn [negb].
  destruct (Z.ltb_spec (int_of_byte b0) 0x80); [lia|].
  destruct (Z.ltb_spec (int_of_byte b0) 0xC0); [lia|].
  destruct (Z.ltb_spec (int_of_byte b0) 0xE0); [|lia].
  now destruct (Z.ltb_spec
    ((int_of_byte b0 - 0xC0) * 64 + (int_of_byte b1 - 0x80)) 0x80); [lia|].
Qed.

Lemma decode_three b0 b1 b2 t x0 x1 x2 c :
  x0 = int_of_byte b0 -> x1 = int_of_byte b1 -> x2 = int_of_byte b2 ->
  c = (x0 - 0xE0) * 4096 + (x1 - 0x80) * 64 + (x2 - 0x80) ->
  0xE0 <= x0 < 0xF0 -> 0x80 <= x1 < 0xC0 -> 0x80 <= x2 < 0xC0 ->
  0x800 <= c -> ~ is_surrogate c ->
  bytes_decode_utf8 (b0 :: b1 :: b2 :: t) =
  let* s := bytes_decode_utf8 t in Ok (c :: s).
Proof.
  intros E0 E1 E2 Ec H0 H1 H2 Hc Hs. unfold is_surrogate in Hs.
  cbn [bytes_decode_utf8]. rewrite <- E0, <- E1, <- E2, <- Ec.
  rewrite (is_cont_true x1 H1), (is_cont_true x2 H2). cbn [negb].
  destruct (Z.ltb_spec x0 0x80); [lia|].
  destruct (Z.ltb_spec x0 0xC0); [lia|].
  destruct (Z.ltb_spec x0 0xE0); [lia|].
  destruct (Z.ltb_spec x0 0xF0); [|lia].
  destruct (Z.ltb_spec c 0x800); [lia|]. cbn [orb].
  destruct (Z.leb_spec 0xD800 c); [|reflexivity].
  now destruct (Z.leb_spec c 0xDFFF); [lia|].
Qed.

Lemma decode_four b0 b1 b2 b3 t x0 x1 x2 x3 c :
  x0 = int_of_byte b0 -> x1 = int_of_byte b1 ->
  x2 = int_of_byte b2 -> x3 = int_of_byte b3 ->
  c = (x0 - 0xF0) * 262144 + (x1 - 0x80) * 4096
      + (x2 - 0x80) * 64 + (x3 - 0x80) ->
  0xF0 <= x0 < 0xF8 -> 0x80 <= x1 < 0xC0 -> 0x80 <= x2 < 0xC0 ->
  0x80 <= x3 < 0xC0 -> 0x10000 <= c <= 0x10FFFF ->
  bytes_decode_utf8 (b0 :: b1 :: b2 :: b3 :: t) =
  let* s := bytes_decode_utf8 t in Ok (c :: s).
Proof.
  intros E0 E1 E2 E3 Ec H0 H1 H2 H3 Hc.
  cbn [bytes_decode_utf8]. rewrite <- E0, <- E1, <- E2, <- E3, <- Ec.
  rewrite (is_cont_true x1 H1), (is_cont_true x2 H2), (is_cont_true x3 H3).
  cbn [negb].
  destruct (Z.ltb_spec x0 0x80); [lia|].
  destruct (Z.ltb_spec x0 0xC0); [lia|].
  destruct (Z.ltb_spec x0 0xE0); [lia|].
  destruct (Z.ltb_spec x0 0xF0); [lia|].
  destruct (Z.ltb_spec x0 0xF8); [|lia].
  destruct (Z.leb_spec 0x10000 c); [|lia].
  now destruct (Z.leb_spec c 0x10FFFF); [|lia].
Qed.

Lemma utf8_encode_char_scalar c :
  is_scalar c -> exists bs, utf8_encode_char c = Ok bs.
Proof.
  intros [[Hlo Hhi] Hs]. unfold is_surrogate in Hs. unfold utf8_encode_char.
  destruct (Z.ltb_spec c 0); [lia|].
  destruct (Z.ltb_spec c 0x80); [eauto|].
  destruct (Z.ltb_spec c 0x800); [eauto|].
  destruct (Z.ltb_spec c 0x10000).
  - destruct (Z.leb_spec 0xD800 c); [|cbn [andb]; eauto].
    destruct (Z.leb_spec c 0xDFFF); [lia|cbn [andb]; eauto].
  - destruct (Z.ltb_spec c 0x110000); [eauto|lia].
Qed.

Lemma utf8_encode_char_inv c bs :
  utf8_encode_char c = Ok bs -> is_scalar c.
Proof.
  unfold utf8_encode_char, is_scalar, is_code_point, is_surrogate.
  destruct (Z.ltb_spec c 0); [discriminate|].
  destruct (Z.ltb_spec c 0x80); [lia|].
  destruct (Z.ltb_spec c 0x800); [lia|].
  destruct (Z.ltb_spec c 0x10000).
  - destruct (Z.leb_spec 0xD800 c); [|lia].
    destruct (Z.leb_spec c 0xDFFF); [discriminate|lia].
  - destruct (Z.ltb_spec c 0x110000); [lia|discriminate].
Qed.

(** Decoding the UTF-8 form of one code point gives it back and goes on
    with the rest. *)
Lemma decode_encode_char c bs t :
  utf8_encode_char c = Ok bs ->
  bytes_decode_utf8 (bs ++ t) =
  let* s := bytes_decode_utf8 t in Ok (c :: s).
Proof.
  unfold utf8_encode_char.
  destruct (Z.ltb_spec c 0); [discriminate|].
  destruct (Z.ltb_spec c 0x80).
  { intros [= <-]. cbn [app].
    rewrite decode_one; rewrite int_of_byte_of_int by lia; [reflexivity|lia]. }
  destruct (Z.ltb_spec c 0x800).
  { intros [= <-]. cbn [app].
    rewrite (decode_two _ _ t (0xC0 + c / 64) (0x80 + c mod 64));
      rewrite ?int_of_byte_of_int by divmod; try reflexivity; try divmod.
    replace ((0xC0 + c / 64 - 0xC0) * 64 + (0x80 + c mod 64 - 0x80))
      with c by divmod.
    reflexivity. }
  destruct (Z.ltb_spec c 0x10000).
  { destruct (Z.leb_spec 0xD800 c) as [Hs1|Hs1];
      [destruct (Z.leb_spec c 0xDFFF) as [Hs2|Hs2]; [discriminate|]|];
      cbn [andb]; intros [= <-]; cbn [app].
    all: apply (decode_three _ _ _ t (0xE0 + c / 4096)
                  (0x80 + (c / 64) mod 64) (0x80 + c mod 64) c);
      rewrite ?int_of_byte_of_int by divmod;
      unfold is_surrogate; try reflexivity; try divmod. }
  destruct (Z.ltb_spec c 0x110000); [|discriminate].
  intros [= <-]. cbn [app].
  apply (decode_four _ _ _ _ t (0xF0 + c / 262144) (0x80 + (c / 4096) mod 64)
           (0x80 + (c / 64) mod 64) (0x80 + c mod 64) c);
    rewrite ?int_of_byte_of_int by divmod; try reflexivity; try divmod.
Qed.

Lemma str_encode_utf8_valid s :
  valid_unicode s -> exists bs, str_encode_utf8 s = Ok bs.
Proof.
  induction 1 as [|c s Hc _ [bs IH]]; [now exists []|].
  destruct (utf8_encode_char_scalar c Hc) as [b Hb].
  exists (b ++ bs). simpl. now rewrite Hb, IH.
Qed.

Lemma str_encode_utf8_inv s : forall bs,
  str_encode_utf8 s = Ok bs -> valid_unicode s.
Proof.
  induction s as [|c s IH]; intros bs H; [constructor|].
  simpl in H. destruct (utf8_encode_char c) as [b| |] eqn:Hb; try discriminate.
  destruct (str_encode_utf8 s) as [bs'| |]; try discriminate.
  constructor; [eapply utf8_encode_char_inv; eauto|eapply IH; eauto].
Qed.

Lemma decode_encode_utf8 s : forall bs,
  str_encode_utf8 s = Ok bs -> bytes_decode_utf8 bs = Ok s.
Proof.
  induction s as [|c s IH]; intros bs H.
  - now injection H as <-.
  - simpl in H. destruct (utf8_encode_char c) as [b| |] eqn:Hb; try discriminate.
    destruct (str_encode_utf8 s) as [bs'| |] eqn:Hs; try discriminate.
    injection H as <-. rewrite (decode_encode_char _ _ _ Hb).
    now rewrite (IH _ eq_refl).
Qed.

(** The converse: whatever the strict decoder accepts is the UTF-8 form
    of the string it returns. *)
Lemma encode_of_one b0 :
  int_of_byte b0 < 0x80 -> utf8_encode_char (int_of_byte b0) = Ok [b0].
Proof.
  intros H. pose proof (int_of_byte_range b0). unfold utf8_encode_char.
  destruct (Z.ltb_spec (int_of_byte b0) 0); [lia|].
  destruct (Z.ltb_spec (int_of_byte b0) 0x80); [|lia].
  now rewrite byte_of_int_of_byte.
Qed.

Lemma encode_of_two b0 b1 c :
  c = (int_of_byte b0 - 0xC0) * 64 + (int_of_byte b1 - 0x80) ->
  0xC0 <= int_of_byte b0 < 0xE0 -> 0x80 <= int_of_byte b1 < 0xC0 ->
  0x80 <= c ->
  utf8_encode_char c = Ok [b0; b1].
Proof.
  intros Ec H0 H1 Hc. unfold utf8_encode_char.
  destruct (Z.ltb_spec c 0); [lia|].
  destruct (Z.ltb_spec c 0x80); [lia|].
  destruct (Z.ltb_spec c 0x800); [|lia].
  replace (0xC0 + c / 64) with (int_of_byte b0) by divmod.
  replace (0x80 + c mod 64) with (int_of_byte b1) by divmod.
  now rewrite !byte_of_int_of_byte.
Qed.

Lemma encode_of_three b0 b1 b2 c :
  c = (int_of_byte b0 - 0xE0) * 4096 + (int_of_byte b1 - 0x80) * 64
      + (int_of_byte b2 - 0x80) ->
  0xE0 <= int_of_byte b0 < 0xF0 -> 0x80 <= int_of_byte b1 < 0xC0 ->
  0x80 <= int_of_byte b2 < 0xC0 ->
  0x800 <= c -> ~ is_surrogate c ->
  utf8_encode_char c = Ok [b0; b1; b2].
Proof.
  intros Ec H0 H1 H2 Hc Hs. unfold is_surrogate in Hs. unfold utf8_encode_char.
  destruct (Z.ltb_spec c 0); [lia|].
  destruct (Z.ltb_spec c 0x80); [lia|].
  destruct (Z.ltb_spec c 0x800); [lia|].
  destruct (Z.ltb_spec c 0x10000); [|lia].
  replace (0xE0 + c / 4096) with (int_of_byte b0) by divmod.
  replace (0x80 + (c / 64) mod 64) with (int_of_byte b1) by divmod.
  replace (0x80 + c mod 64) with (int_of_byte b2) by divmod.
  rewrite !byte_of_int_of_byte.
  destruct (Z.leb_spec 0xD800 c); [|reflexivity].
  now destruct (Z.leb_spec c 0xDFFF); [lia|].
Qed.

Lemma encode_of_four b0 b1 b2 b3 c :
  c = (int_of_byte b0 - 0xF0) * 262144 + (int_of_byte b1 - 0x80) * 4096
      + (int_of_byte b2 - 0x80) * 64 + (int_of_byte b3 - 0x80) ->
  0xF0 <= int_of_byte b0 -> 0x80 <= int_of_byte b1 < 0xC0 ->
  0x80 <= int_of_byte b2 < 0xC0 -> 0x80 <= int_of_byte b3 < 0xC0 ->
  0x10000 <= c <= 0x10FFFF ->
  utf8_encode_char c = Ok [b0; b1; b2; b3].
Proof.
  intros Ec H0 H1 H2 H3 Hc. unfold utf8_encode_char.
  destruct (Z.ltb_spec c 0); [lia|].
  destruct (Z.ltb_spec c 0x80); [lia|].
  destruct (Z.ltb_spec c 0x800); [lia|].
  destruct (Z.ltb_spec c 0x10000); [lia|].
  destruct (Z.ltb_spec c 0x110000); [|lia].
  replace (0xF0 + c / 262144) with (int_of_byte b0) by divmod.
  replace (0x80 + (c / 4096) mod 64) with (int_of_byte b1) by divmod.
  replace (0x80 + (c / 64) mod 64) with (int_of_byte b2) by divmod.
  replace (0x80 + c mod 64) with (int_of_byte b3) by divmod.
  now rewrite !byte_of_int_of_byte.
Qed.

Lemma bind_ok_inv {A B : Type} (m : res A) (k : A -> res B) (b : B) :
  bind m k = Ok b -> exists a, m = Ok a /\ k a = Ok b.
Proof. destruct m; simpl; intros H; try discriminate; eauto. Qed.

(** One step of the decoder, read backwards. *)
Lemma decode_step_inv b0 t0 s :
  bytes_decode_utf8 (b0 :: t0) = Ok s ->
  exists c enc t s',
    b0 :: t0 = enc ++ t /\ utf8_encode_char c = Ok enc /\
    bytes_decode_utf8 t = Ok s' /\ s = c :: s' /\
    (length t <= length t0)%nat.
Proof.
  cbn [bytes_decode_utf8].
  destruct (int_of_byte b0 <? 0x80) eqn:L1.
  { intros H. apply bind_ok_inv in H as (s' & Hs' & [= <-]). bool_hyps.
    exists (int_of_byte b0), [b0], t0, s'.
    repeat split; auto using encode_of_one. }
  destruct (int_of_byte b0 <? 0xC0) eqn:L2; [discriminate|].
  destruct t0 as [|b1 t1]; [discriminate|].
  destruct (negb (is_cont (int_of_byte b1))) eqn:C1; [discriminate|].
  bool_hyps. apply is_cont_inv in C1.
  destruct (int_of_byte b0 <? 0xE0) eqn:L3.
  { destruct (_ <? 0x80) eqn:O2; [discriminate|].
    intros H. apply bind_ok_inv in H as (s' & Hs' & [= <-]). bool_hyps.
    eexists _, [b0; b1], t1, s'. repeat split; eauto.
    - apply encode_of_two; auto; lia.
    - simpl; lia. }
  destruct t1 as [|b2 t2]; [discriminate|].
  destruct (negb (is_cont (int_of_byte b2))) eqn:C2; [discriminate|].
  bool_hyps. apply is_cont_inv in C2.
  destruct (int_of_byte b0 <? 0xF0) eqn:L4.
  { destruct (_ || _)%bool eqn:O3; [discriminate|].
    intros H. apply bind_ok_inv in H as (s' & Hs' & [= <-]). bool_hyps.
    eexists _, [b0; b1; b2], t2, s'. repeat split; eauto.
    - apply encode_of_three; auto; try lia.
      unfold is_surrogate. intros [Ha Hb].
      match goal with
      | H : (_ && _)%bool = false |- _ =>
          apply andb_false_iff in H; destruct H; bool_hyps; lia
      end.
    - simpl; lia. }
  destruct t2 as [|b3 t3]; [discriminate|].
  destruct (negb (is_cont (int_of_byte b3))) eqn:C3; [discriminate|].
  bool_hyps. apply is_cont_inv in C3.
  destruct (_ && _)%bool eqn:O4; [|discriminate].
  intros H. apply bind_ok_inv in H as (s' & Hs' & [= <-]). bool_hyps.
  eexists _, [b0; b1; b2; b3], t3, s'. repeat split; eauto.
  - apply encode_of_four; auto; lia.
  - simpl; lia.
Qed.

Lemma encode_decode_utf8_bounded n : forall bs s,
  (length bs <= n)%nat ->
  bytes_decode_utf8 bs = Ok s -> str_encode_utf8 s = Ok bs.
Proof.
  induction n as [|n IH]; intros bs s Hn H.
  - destruct bs; [now injection H as <-|simpl in Hn; lia].
  - destruct bs as [|b0 t0]; [now injection H as <-|].
    apply decode_step_inv in H as (c & enc & t & s' & E & Henc & Ht & -> & Hl).
    simpl in Hn. rewrite E. simpl. rewrite Henc. simpl.
    now rewrite (IH t s') by (auto; lia).
Qed.

Lemma encode_decode_utf8 bs s :
  bytes_decode_utf8 bs = Ok s -> str_encode_utf8 s = Ok bs.
Proof. now apply (encode_decode_utf8_bounded (length bs)). Qed.

(** The decoder never answers otherwise than with a string or
    [UnicodeDecodeError]. *)
Lemma bytes_decode_utf8_total bs :
  (exists s, bytes_decode_utf8 bs = Ok s) \/
  bytes_decode_utf8 bs = Raise UnicodeDecodeError.
Proof.
  assert (H : forall n (bs : bytes), (length bs <= n)%nat ->
    (exists s, bytes_decode_utf8 bs = Ok s) \/
    bytes_decode_utf8 bs = Raise UnicodeDecodeError).
  { clear bs. induction n as [|n IH]; intros bs Hn.
    - destruct bs; [left; now exists []|simpl in Hn; lia].
    - destruct bs as [|b0 t0]; [left; now exists []|]. simpl in Hn.
      assert (K : forall (t : bytes) c, (length t <= length t0)%nat ->
        (exists s, (let* s := bytes_decode_utf8 t in Ok (c :: s)) = Ok s) \/
        (let* s := bytes_decode_utf8 t in Ok (c :: s))
        = Raise UnicodeDecodeError).
      { intros t c Ht. destruct (IH t ltac:(lia)) as [[s ->]| ->];
          [left; eexists; reflexivity|now right]. }
      cbn [bytes_decode_utf8].
      repeat first
        [ now right
        | apply K; simpl; lia
        | match goal with
          | |- context [if ?b then _ else _] => destruct b
          | |- context [match ?l with [] => _ | _ :: _ => _ end] =>
              destruct l; simpl in *
          end ]. }
  now apply (H (length bs)).
Qed.

(** ** The tokenizers *)

Lemma character_decode_encode s :
  is_str s -> CharacterTokenizer.decode (map ord s) = Ok s.
Proof.
  induction 1 as [|c s [Hlo Hhi] _ IH]; [reflexivity|].
  cbn [map CharacterTokenizer.decode]. change (ord c) with c. unfold chr.
  destruct (Z.leb_spec 0 c); [|lia].
  destruct (Z.leb_spec c 0x10FFFF); [|lia].
  simpl. now rewrite IH.
Qed.

Lemma valid_unicode_is_str s : valid_unicode s -> is_str s.
Proof. intros H. eapply Forall_impl; [exact H|]. now intros c [Hc _]. Qed.

Lemma byte_decode_encode s bs :
  str_encode_utf8 s = Ok bs ->
  ByteTokenizer.decode (map int_of_byte bs) = Ok s.
Proof.
  intros H. unfold ByteTokenizer.decode.
  rewrite bytes_of_ints_of_bytes. simpl. now apply decode_encode_utf8.
Qed.

(** C4. For every valid Unicode string [s] (a sequence of scalar
    values), [decode(encode(s))] is exactly [s], for the code-point
    tokenizer and for the raw-byte tokenizer: each [encode] returns an id
    sequence and [decode] of it returns [s]. *)
Theorem tokenizers_round_trip (s : str) :
  valid_unicode s ->
  (exists ids, CharacterTokenizer.encode s = Ok ids /\
               CharacterTokenizer.decode ids = Ok s) /\
  (exists ids, ByteTokenizer.encode s = Ok ids /\
               ByteTokenizer.decode ids = Ok s).
Proof.
  intros Hs. split.
  - exists (map ord s). split; [reflexivity|].
    now apply character_decode_encode, valid_unicode_is_str.
  - destruct (str_encode_utf8_valid s Hs) as [bs Hbs].
    exists (map int_of_byte bs). split.
    + unfold ByteTokenizer.encode. now rewrite Hbs.
    + now apply byte_decode_encode.
Qed.

(** An instance, on a string with characters of one to four bytes. *)
Lemma tokenizers_round_trip_witness :
  (exists ids, CharacterTokenizer.encode [104; 0xE9; 0x20AC; 0x1F600] = Ok ids /\
               CharacterTokenizer.decode ids = Ok [104; 0xE9; 0x20AC; 0x1F600]) /\
  (exists ids, ByteTokenizer.encode [104; 0xE9; 0x20AC; 0x1F600] = Ok ids /\
               ByteTokenizer.decode ids = Ok [104; 0xE9; 0x20AC; 0x1F600]).
Proof.
  apply (tokenizers_round_trip [104; 0xE9; 0x20AC; 0x1F600]).
  repeat constructor; unfold is_surrogate; lia.
Defined.

(** [encode] on any string: the rules applied to the UTF-8 bytes, or the
    error of the UTF-8 encoder. *)
Lemma bpe_encode_unfold (params : BPETokenizerParams) (s : str) :
  BytePairEncodingTokenizer.encode params s =
  let* string_bytes := str_encode_utf8 s in
  Ok (apply_rules (merges params) (map int_of_byte string_bytes)).
Proof.
  unfold BytePairEncodingTokenizer.encode.
  destruct (str_encode_utf8 s); simpl; auto using encode_loop_rules.
Qed.

(** C1. For every input string, [encode] seeds the working sequence with
    one id per UTF-8 byte of the string, each in [0 .. 255], and returns
    the result of applying the merge rules once each, in list order,
    every application being one left-to-right non-overlapping
    replacement pass ([replace_pass]: a match takes two elements, puts
    the rule's new id and resumes two places on). *)
Theorem bpe_encode_ordered_passes (params : BPETokenizerParams) (s : str) :
  valid_unicode s ->
  exists string_bytes,
    str_encode_utf8 s = Ok string_bytes /\
    let seed := map int_of_byte string_bytes in
    length seed = length string_bytes /\
    Forall (fun id => 0 <= id <= 255) seed /\
    BytePairEncodingTokenizer.encode params s =
    Ok (apply_rules (merges params) seed).
Proof.
  intros Hs. destruct (str_encode_utf8_valid s Hs) as [bs Hbs].
  exists bs. split; [exact Hbs|]. cbn zeta. repeat split.
  - apply length_map.
  - apply ints_of_bytes_range.
  - unfold BytePairEncodingTokenizer.encode. rewrite Hbs. simpl.
    apply encode_loop_rules.
Qed.

(** An instance, with two rules the second of which uses the id made
    by the first. *)
Lemma bpe_encode_ordered_passes_witness :
  exists string_bytes,
    str_encode_utf8 [104; 0xE9; 0x20AC] = Ok string_bytes /\
    let seed := map int_of_byte string_bytes in
    length seed = length string_bytes /\
    Forall (fun id => 0 <= id <= 255) seed /\
    BytePairEncodingTokenizer.encode
      {| vocab := ∅; merges := [((0xC3, 0xA9), 256); ((104, 256), 257)] |}
      [104; 0xE9; 0x20AC] =
    Ok (apply_rules [((0xC3, 0xA9), 256); ((104, 256), 257)] seed).
Proof.
  apply (bpe_encode_ordered_passes
           {| vocab := ∅; merges := [((0xC3, 0xA9), 256); ((104, 256), 257)] |}
           [104; 0xE9; 0x20AC]).
  repeat constructor; unfold is_surrogate; lia.
Defined.

Example bpe_encode_sample :
  BytePairEncodingTokenizer.encode
    {| vocab := ∅; merges := [((0xC3, 0xA9), 256); ((104, 256), 257)] |}
    [104; 0xE9; 0x20AC] = Ok [257; 0xE2; 0x82; 0xAC].
Proof. reflexivity. Qed.

(** C5. The rule [(5, 5) -> 9] on the ids [5, 5, 5] gives [9, 5], not
    [9, 9] and not [5, 9]: for [merge], for the rule loop of [encode],
    and for [encode] on the string of the three code points 5. *)
Theorem merge_no_overlap :
  merge [5; 5; 5] (5, 5) 9 = Ok [9; 5] /\
  merge [5; 5; 5] (5, 5) 9 <> Ok [9; 9] /\
  merge [5; 5; 5] (5, 5) 9 <> Ok [5; 9] /\
  BytePairEncodingTokenizer.encode_loop [((5, 5), 9)] [5; 5; 5] = Ok [9; 5] /\
  BytePairEncodingTokenizer.encode
    {| vocab := ∅; merges := [((5, 5), 9)] |} [5; 5; 5] = Ok [9; 5].
Proof.
  repeat split; try reflexivity; intros H; vm_compute in H; discriminate.
Qed.

(** C6. With an empty merge list, [encode] of the BPE tokenizer is
    [encode] of the raw-byte tokenizer, on every string (both raise
    [UnicodeEncodeError] where the string has no UTF-8 form). *)
Theorem bpe_encode_no_merges (v : gmap Z bytes) (s : str) :
  BytePairEncodingTokenizer.encode {| vocab := v; merges := [] |} s =
  ByteTokenizer.encode s.
Proof.
  unfold BytePairEncodingTokenizer.encode, ByteTokenizer.encode.
  now destruct (str_encode_utf8 s).
Qed.

(** C10. One [merge] pass returns a list whose length is the input's
    minus the number of matches it replaced (the turns of its loop that
    take the replacement branch, which [count_replaced] counts), so never
    longer; and [encode] returns at most as many ids as the string has
    UTF-8 bytes. *)
Theorem merge_never_longer :
  (forall indices pair new_index,
     exists out replaced,
       merge indices pair new_index = Ok out /\
       merge_replaced indices pair = Ok replaced /\
       replaced = count_replaced (fst pair) (snd pair) indices /\
       (length out + replaced = length indices)%nat /\
       (length out <= length indices)%nat) /\
  (forall params s, valid_unicode s ->
     exists string_bytes out,
       str_encode_utf8 s = Ok string_bytes /\
       BytePairEncodingTokenizer.encode params s = Ok out /\
       (length out <= length string_bytes)%nat).
Proof.
  split.
  - intros indices [l r] n. eexists _, _.
    split; [apply merge_is_pass|]. split; [apply merge_replaced_count|].
    split; [reflexivity|].
    pose proof (replace_pass_length l r n indices). simpl. lia.
  - intros params s Hs.
    destruct (str_encode_utf8_valid s Hs) as [bs Hbs].
    exists bs, (apply_rules (merges params) (map int_of_byte bs)).
    split; [exact Hbs|]. split.
    { now rewrite bpe_encode_unfold, Hbs. }
    etransitivity; [apply apply_rules_length|]. now rewrite length_map.
Qed.

(** An instance of the bound for [encode]. *)
Lemma merge_never_longer_witness :
  exists string_bytes out,
    str_encode_utf8 [104; 0xE9; 0xE9] = Ok string_bytes /\
    BytePairEncodingTokenizer.encode
      {| vocab := ∅; merges := [((0xC3, 0xA9), 256)] |} [104; 0xE9; 0xE9]
    = Ok out /\
    (length out <= length string_bytes)%nat.
Proof.
  apply (proj2 merge_never_longer
           {| vocab := ∅; merges := [((0xC3, 0xA9), 256)] |} [104; 0xE9; 0xE9]).
  repeat constructor; unfold is_surrogate; lia.
Defined.

(** ** Decoding with the vocabulary *)

Lemma bytes_join_absent sep (items : list (option bytes)) :
  None ∈ items -> bytes_join sep items = Raise TypeError.
Proof.
  induction items as [|[b|] items IH]; intros H.
  - inversion H.
  - apply elem_of_cons in H as [H|H]; [discriminate|].
    simpl. now rewrite (IH H).
  - reflexivity.
Qed.

Lemma bytes_join_present (bss : list bytes) :
  bytes_join [] (map Some bss) = Ok (concat bss).
Proof.
  induction bss as [|b bss IH]; [reflexivity|].
  cbn [map bytes_join]. rewrite IH. simpl.
  destruct bss; simpl; [now rewrite app_nil_r|reflexivity].
Qed.

Lemma vocab_get_all (v : gmap Z bytes) (ids : list Z) (bss : list bytes) :
  Forall2 (fun id b => v !! id = Some b) ids bss ->
  map (fun i => v !! i) ids = map Some bss.
Proof. induction 1; simpl; congruence. Qed.

Lemma vocab_get_present (v : gmap Z bytes) (ids : list Z) :
  (forall id, id ∈ ids -> is_Some (v !! id)) ->
  exists bss, Forall2 (fun id b => v !! id = Some b) ids bss.
Proof.
  induction ids as [|id ids IH]; intros H; [exists []; constructor|].
  destruct (H id) as [b Hb]; [left|].
  destruct IH as [bss Hbss]; [intros; apply H; now right|].
  exists (b :: bss). now constructor.
Qed.

(** C7, as the code has it.  [decode] on an id sequence with an id
    absent from the vocabulary fails with the [TypeError] that the join
    raises on the [None] that [vocab.get] gave (the decoder has no error
    of its own for an unknown id); it returns no string then.  With all
    ids present, the bytes looked up are concatenated in order and parsed
    as UTF-8: the string whose UTF-8 form they are is returned, and
    [UnicodeDecodeError] is raised if they are the UTF-8 form of no
    string. *)
Theorem bpe_decode_outcomes (params : BPETokenizerParams) (ids : list Z) :
  ((exists id, id ∈ ids /\ vocab params !! id = None) ->
     BytePairEncodingTokenizer.decode params ids = Raise TypeError /\
     forall s, BytePairEncodingTokenizer.decode params ids <> Ok s) /\
  ((forall id, id ∈ ids -> is_Some (vocab params !! id)) ->
     exists bss,
       Forall2 (fun id b => vocab params !! id = Some b) ids bss /\
       BytePairEncodingTokenizer.decode params ids
       = bytes_decode_utf8 (concat bss) /\
       (forall s, str_encode_utf8 s = Ok (concat bss) <->
                  BytePairEncodingTokenizer.decode params ids = Ok s) /\
       ((forall s, str_encode_utf8 s <> Ok (concat bss)) ->
        BytePairEncodingTokenizer.decode params ids
        = Raise UnicodeDecodeError)).
Proof.
  split.
  - intros (id & Hin & Hid).
    assert (E : BytePairEncodingTokenizer.decode params ids = Raise TypeError).
    { unfold BytePairEncodingTokenizer.decode.
      rewrite bytes_join_absent; [reflexivity|].
      rewrite <- Hid. apply list_elem_of_fmap. now exists id. }
    split; [exact E|]. intros s. now rewrite E.
  - intros Hall. destruct (vocab_get_present _ _ Hall) as [bss Hbss].
    exists bss. split; [exact Hbss|].
    assert (E : BytePairEncodingTokenizer.decode params ids
                = bytes_decode_utf8 (concat bss)).
    { unfold BytePairEncodingTokenizer.decode.
      now rewrite (vocab_get_all _ _ _ Hbss), bytes_join_present. }
    split; [exact E|]. rewrite E. split.
    + intros s. split; [apply decode_encode_utf8|apply encode_decode_utf8].
    + intros Hno. destruct (bytes_decode_utf8_total (concat bss)) as [[s Hs]|H];
        [|exact H].
      now apply encode_decode_utf8, Hno in Hs.
Qed.

(** Instances: the id 7 is absent; the ids 0 and 256 are present. *)
Lemma bpe_decode_outcomes_witness :
  (BytePairEncodingTokenizer.decode sample_params [0; 7] = Raise TypeError /\
   forall s, BytePairEncodingTokenizer.decode sample_params [0; 7] <> Ok s) /\
  (exists bss,
     Forall2 (fun id b => vocab sample_params !! id = Some b) [0; 256] bss /\
     BytePairEncodingTokenizer.decode sample_params [0; 256]
     = bytes_decode_utf8 (concat bss) /\
     (forall s, str_encode_utf8 s = Ok (concat bss) <->
                BytePairEncodingTokenizer.decode sample_params [0; 256] = Ok s) /\
     ((forall s, str_encode_utf8 s <> Ok (concat bss)) ->
      BytePairEncodingTokenizer.decode sample_params [0; 256]
      = Raise UnicodeDecodeError)).
Proof.
  split.
  - apply (proj1 (bpe_decode_outcomes sample_params [0; 7])).
    exists 7. split; [right; left|reflexivity].
  - apply (proj2 (bpe_decode_outcomes sample_params [0; 256])).
    intros id H.
    apply elem_of_cons in H as [->|H]; [eexists; reflexivity|].
    apply elem_of_cons in H as [->|H]; [eexists; reflexivity|].
    inversion H.
Defined.

(** C7 fails as stated: on the ids 0 and 7, the second absent from the
    sample vocabulary, [decode] raises no error of its own for the
    unknown id; the join raises [TypeError]. *)
Lemma bpe_decode_unknown_id_type_error :
  BytePairEncodingTokenizer.decode sample_params [0; 7] = Raise TypeError /\
  ~ unknown_token_failure
      (BytePairEncodingTokenizer.decode sample_params [0; 7]).
Proof.
  split; [reflexivity|].
  intros (e & H & He). injection H as <-. now apply He.
Qed.

Example bpe_decode_sample :
  BytePairEncodingTokenizer.decode sample_params [0; 256] = Ok [104; 0xE9].
Proof. reflexivity. Qed.

Example bpe_decode_invalid :
  BytePairEncodingTokenizer.decode
    {| vocab := {[ 0 := [x68]; 1 := [xc3] ]}; merges := [] |} [1; 0]
  = Raise UnicodeDecodeError.
Proof. reflexivity. Qed.

(** ** The compression ratio *)

(** C9 fails as stated: on the empty string and the empty id sequence
    the utility neither returns 0 nor raises an error of its own; the
    division itself raises [ZeroDivisionError]. *)
Lemma compression_ratio_empty_unguarded :
  get_compression_ratio [] [] = Raise ZeroDivisionError /\
  ~ explicit_empty_policy (get_compression_ratio [] []).
Proof.
  split; [reflexivity|].
  intros [(q & H & _)|(e & H & He)]; [discriminate|].
  injection H as <-. now apply He.
Qed.

(** C9, as the code has it.  For a valid Unicode string: on the empty id
    sequence the division is not guarded and [ZeroDivisionError] is
    raised (0 is not returned); on a non-empty id sequence the quotient
    of the UTF-8 byte length by the number of ids is returned. *)
Theorem compression_ratio_outcomes (s : str) (ids : list Z) :
  valid_unicode s ->
  exists string_bytes,
    str_encode_utf8 s = Ok string_bytes /\
    get_compression_ratio s ids =
    match ids with
    | [] => Raise ZeroDivisionError
    | _ :: _ => Ok (inject_Z (Z.of_nat (length string_bytes))
                    / inject_Z (Z.of_nat (length ids)))%Q
    end.
Proof.
  intros Hs. destruct (str_encode_utf8_valid s Hs) as [bs Hbs].
  exists bs. split; [exact Hbs|].
  unfold get_compression_ratio. rewrite Hbs. cbn [bind].
  destruct ids as [|i ids]; [reflexivity|]. unfold true_div.
  destruct (Z.eqb_spec (Z.of_nat (length (i :: ids))) 0) as [E|E];
    [simpl in E; lia|reflexivity].
Qed.

(** Instances: five bytes over no id, and over two ids. *)
Lemma compression_ratio_outcomes_witness :
  (exists string_bytes,
     str_encode_utf8 [104; 101; 108; 108; 111] = Ok string_bytes /\
     get_compression_ratio [104; 101; 108; 108; 111] []
     = Raise ZeroDivisionError) /\
  (exists string_bytes,
     str_encode_utf8 [104; 101; 108; 108; 111] = Ok string_bytes /\
     get_compression_ratio [104; 101; 108; 108; 111] [1; 2]
     = Ok (inject_Z (Z.of_nat (length string_bytes))
           / inject_Z (Z.of_nat (length [1; 2])))%Q).
Proof.
  split.
  - apply (compression_ratio_outcomes [104; 101; 108; 108; 111] []).
    repeat constructor; unfold is_surrogate; lia.
  - apply (compression_ratio_outcomes [104; 101; 108; 108; 111] [1; 2]).
    repeat constructor; unfold is_surrogate; lia.
Defined.

(** ** The chunk boundary finder *)

Lemma starts_with_take (needle : bytes) : forall hay : bytes,
  starts_with hay needle = true <-> take (length needle) hay = needle.
Proof.
  induction needle as [|n ns IH]; intros hay; [now destruct hay|].
  destruct hay as [|h hs]; simpl; [split; discriminate|].
  rewrite andb_true_iff, IH. split.
  - intros [E ->]. now apply Byte.byte_dec_bl in E as ->.
  - intros [= -> E]. rewrite E. split; [now apply Byte.byte_dec_lb|reflexivity].
Qed.

Lemma find_from_empty_needle (hay : bytes) i : find_from hay [] i = i.
Proof. now destruct hay. Qed.

(** A result of [find] other than -1 is an offset inside the haystack
    where the needle starts. *)
Lemma find_from_found (needle : bytes) : forall (hay : bytes) i,
  0 <= i -> hay <> [] -> find_from hay needle i <> -1 ->
  exists k : nat,
    find_from hay needle i = i + Z.of_nat k /\ (k < length hay)%nat /\
    take (length needle) (drop k hay) = needle.
Proof.
  induction hay as [|h rest IH]; intros i Hi Hne Hr; [congruence|].
  cbn [find_from] in *.
  destruct (starts_with (h :: rest) needle) eqn:Hs.
  - exists O. repeat split; [lia|simpl; lia|]. now apply starts_with_take.
  - destruct rest as [|h' rest'].
    + cbn [find_from] in Hr. destruct (starts_with [] needle) eqn:Hs';
        [|congruence].
      destruct needle; simpl in Hs, Hs'; congruence.
    + destruct (IH (i + 1)) as (k & Hk & Hlt & Hocc); [lia|congruence|exact Hr|].
      exists (S k). rewrite Hk. cbn [length] in *.
      repeat split; [lia|lia|exact Hocc].
Qed.

(** An occurrence seen in the window read at [p] is one in the file. *)
Lemma occurrence_in_window (c delim : bytes) (p n k : nat) :
  (k < length (take n (drop p c)))%nat ->
  take (length delim) (drop k (take n (drop p c))) = delim ->
  take (length delim) (drop (p + k) c) = delim.
Proof.
  intros Hk H. rewrite length_take in Hk.
  assert (E : drop k (take n (drop p c)) = take (n - k) (drop (p + k) c)).
  { rewrite <- drop_drop, (take_drop_commute (drop p c) (n - k) k).
    now replace (k + (n - k))%nat with n by lia. }
  rewrite E, take_take in H.
  assert (Hlen : (length delim <= n - k)%nat).
  { rewrite <- H at 1. rewrite length_take. lia. }
  now rewrite Nat.min_l in H by exact Hlen.
Qed.

Lemma snap_loop_unfold fuel f delim file_size ip :
  snap_loop (S fuel) f delim file_size ip =
  let mini_chunk := take mini_chunk_size (drop (pos f) (content f)) in
  let f1 := {| content := content f;
               pos := (pos f + length mini_chunk)%nat |} in
  if decide (mini_chunk = []) then Ok (file_size, f1)
  else if negb (bytes_find mini_chunk delim =? -1)
       then Ok (ip + bytes_find mini_chunk delim, f1)
       else snap_loop fuel f1 delim file_size (ip + Z.of_nat mini_chunk_size).
Proof. reflexivity. Qed.

Lemma mini_chunk_size_pos : (0 < mini_chunk_size)%nat.
Proof. unfold mini_chunk_size. lia. Qed.

Lemma snap_loop_spec (delim : bytes) fuel : forall (f : file) ip,
  0 <= ip ->
  pos f = Nat.min (Z.to_nat ip) (length (content f)) ->
  (length (content f) - pos f < fuel)%nat ->
  exists b f',
    snap_loop fuel f delim (Z.of_nat (length (content f))) ip = Ok (b, f') /\
    content f' = content f /\ snapped (content f) delim ip b.
Proof.
  pose proof mini_chunk_size_pos as Hn.
  induction fuel as [|fuel IH]; intros f ip Hip Hpos Hfuel; [lia|].
  rewrite snap_loop_unfold. cbn zeta.
  set (mini := take mini_chunk_size (drop (pos f) (content f))).
  assert (Hlen : length mini
                 = Nat.min mini_chunk_size (length (content f) - pos f)).
  { unfold mini. now rewrite length_take, length_drop. }
  destruct (decide (mini = [])) as [Hm|Hm].
  { eexists _, _. split; [reflexivity|]. split; [reflexivity|now left]. }
  assert (Hnz : (0 < length mini)%nat) by (destruct mini; [congruence|simpl; lia]).
  destruct (Z.eqb_spec (bytes_find mini delim) (-1)) as [Hf|Hf]; cbn [negb].
  - destruct (IH {| content := content f; pos := (pos f + length mini)%nat |}
                (ip + Z.of_nat mini_chunk_size)) as (b & f' & Hb & Hc & Hs);
      cbn [content pos]; try lia.
    cbn [content pos] in Hb, Hc, Hs.
    exists b, f'. split; [exact Hb|]. split; [exact Hc|].
    destruct Hs as [Hs|[Hs Ho]]; [now left|right]. split; [lia|exact Ho].
  - destruct (find_from_found delim mini 0) as (k & Hk & Hlt & Hocc);
      [lia|exact Hm|exact Hf|].
    unfold bytes_find. rewrite Hk.
    eexists _, _. split; [reflexivity|]. split; [reflexivity|].
    right. split; [lia|]. split; [lia|].
    replace (Z.to_nat (ip + (0 + Z.of_nat k))) with (pos f + k)%nat by lia.
    now apply (occurrence_in_window _ _ _ mini_chunk_size).
Qed.

Lemma snapped_range (c delim : bytes) g b :
  0 <= g -> snapped c delim g b -> 0 <= b <= Z.of_nat (length c).
Proof. intros Hg [->|[Hb _]]; lia. Qed.

(** The loop over the interior boundaries: every index in [bis] gets a
    snapped value of its guess, the other entries are kept. *)
Lemma boundaries_loop_spec (c delim : bytes) fuel :
  (length c < fuel)%nat ->
  forall (bis : list Z) (f : file) (cb : list Z),
    content f = c -> NoDup bis ->
    (forall bi, bi ∈ bis ->
       0 <= bi /\ exists g, cb !! (Z.to_nat bi) = Some g /\
                            0 <= g <= Z.of_nat (length c)) ->
    exists cb' f',
      boundaries_loop fuel bis f delim (Z.of_nat (length c)) cb = Ok (cb', f') /\
      length cb' = length cb /\
      forall (i : nat) g, cb !! i = Some g ->
        exists b, cb' !! i = Some b /\
          (((Z.of_nat i ∉ bis) /\ b = g) \/
           (Z.of_nat i ∈ bis /\ snapped c delim g b)).
Proof.
  intros Hfuel bis. induction bis as [|bi rest IH]; intros f cb Hc Hnd Hbis.
  { exists cb, f. split; [reflexivity|]. split; [reflexivity|].
    intros i g Hg. exists g. split; [exact Hg|]. left. split; [|reflexivity].
    apply not_elem_of_nil. }
  apply NoDup_cons in Hnd as [Hbi Hnd].
  destruct (Hbis bi) as (Hbi0 & g & Hg & Hgr); [left|].
  cbn [boundaries_loop]. unfold get_item. rewrite Hg. cbn [bind].
  unfold seek. destruct (Z.ltb_spec g 0); [lia|]. cbn [bind].
  destruct (snap_loop_spec delim fuel
              {| content := content f; pos := Z.to_nat g |} g)
    as (b & f2 & Hsnap & Hc2 & Hb); cbn [content pos]; try rewrite Hc; try lia.
  cbn [content pos] in Hsnap, Hc2, Hb. rewrite Hc in Hsnap, Hc2, Hb.
  rewrite Hsnap. cbn [bind].
  destruct (IH f2 (<[Z.to_nat bi := b]> cb)) as (cb' & f' & Hloop & Hlen & Hcb');
    [exact Hc2|exact Hnd| |].
  { intros bj Hbj. destruct (Hbis bj) as (Hbj0 & gj & Hgj & Hgjr); [now right|].
    split; [exact Hbj0|]. exists gj. split; [|exact Hgjr].
    rewrite list_lookup_insert_ne; [exact Hgj|].
    intros E. apply Hbi. now replace bi with bj by lia. }
  exists cb', f'. split; [exact Hloop|]. split.
  { now rewrite Hlen, length_insert. }
  intros i g0 Hg0. destruct (decide (i = Z.to_nat bi)) as [->|Hne].
  - assert (g0 = g) as -> by congruence.
    destruct (Hcb' (Z.to_nat bi) b) as (b' & Hb' & Hcase).
    { apply list_lookup_insert_eq. now apply lookup_lt_Some in Hg. }
    exists b'. split; [exact Hb'|]. right.
    rewrite Z2Nat.id in * by lia. split; [left|].
    destruct Hcase as [[_ ->]|[Hin _]]; [exact Hb|contradiction].
  - destruct (Hcb' i g0) as (b' & Hb' & Hcase).
    { now rewrite list_lookup_insert_ne. }
    exists b'. split; [exact Hb'|].
    destruct Hcase as [[Hnin ->]|[Hin Hs]]; [left|right; split; [now right|exact Hs]].
    split; [|reflexivity]. rewrite not_elem_of_cons. split; [lia|exact Hnin].
Qed.

(** [sorted(set(l))] *)
Lemma sorted_set_elem (l : list Z) x : x ∈ sorted_set l <-> x ∈ l.
Proof.
  unfold sorted_set. now rewrite merge_sort_Permutation, elem_of_remove_dups.
Qed.



Lemma le_sorted_nodup_lt (l : list Z) :
  StronglySorted Z.le l -> NoDup l -> StronglySorted Z.lt l.
Proof.
  induction 1 as [|x l Hs IH Hall]; intros Hnd; constructor.
  - apply IH. now apply NoDup_cons in Hnd.
  - apply NoDup_cons in Hnd as [Hx _].
    rewrite Forall_forall in *. intros y Hy.
    assert (x <> y) by (intros ->; contradiction).
    specialize (Hall y Hy). lia.
Qed.

Lemma sorted_set_increasing (l : list Z) : StronglySorted Z.lt (sorted_set l).
Proof.
  apply le_sorted_nodup_lt.
  - unfold sorted_set. apply StronglySorted_merge_sort; apply _.
  - unfold sorted_set. rewrite merge_sort_Permutation. apply NoDup_remove_dups.
Qed.

Lemma increasing_head (l : list Z) lo :
  StronglySorted Z.lt l -> lo ∈ l -> (forall x, x ∈ l -> lo <= x) ->
  head l = Some lo.
Proof.
  intros Hs Hin Hlo. destruct Hs as [|x l Hs Hall]; [inversion Hin|].
  simpl. f_equal. apply elem_of_cons in Hin as [->|Hin]; [reflexivity|].
  rewrite Forall_forall in Hall. specialize (Hall lo Hin).
  specialize (Hlo x ltac:(left)). lia.
Qed.

Lemma increasing_last (l : list Z) hi :
  StronglySorted Z.lt l -> hi ∈ l -> (forall x, x ∈ l -> x <= hi) ->
  last l = Some hi.
Proof.
  induction 1 as [|x l Hs IH Hall]; intros Hin Hhi; [inversion Hin|].
  destruct l as [|y l].
  - apply elem_of_cons in Hin as [->|Hin]; [reflexivity|inversion Hin].
  - change (last (x :: y :: l)) with (last (y :: l)). apply IH.
    + apply elem_of_cons in Hin as [->|Hin]; [|exact Hin].
      rewrite Forall_forall in Hall. specialize (Hall y ltac:(left)).
      specialize (Hhi y ltac:(right; left)). lia.
    + intros z Hz. apply Hhi. now right.
Qed.

Lemma naive_boundaries_length file_size k :
  0 < k -> length (naive_boundaries file_size k) = S (Z.to_nat k).
Proof.
  intros Hk. unfold naive_boundaries, py_range.
  rewrite length_insert, length_map, length_seqZ. lia.
Qed.

Lemma naive_boundaries_last file_size k :
  0 < k -> naive_boundaries file_size k !! Z.to_nat k = Some file_size.
Proof.
  intros Hk. unfold naive_boundaries, py_range.
  apply list_lookup_insert_eq. rewrite length_map, length_seqZ. lia.
Qed.

Lemma naive_boundaries_guess file_size k (i : nat) :
  (i < Z.to_nat k)%nat ->
  naive_boundaries file_size k !! i
  = Some (Z.of_nat i * (file_size / k)).
Proof.
  intros Hi. unfold naive_boundaries, py_range.
  rewrite list_lookup_insert_ne by lia.
  change (map ?f ?l) with (f <$> l).
  now rewrite list_lookup_fmap, lookup_seqZ_lt by lia.
Qed.

Lemma set_last_cons x (l : list Z) v :
  set_last (x :: l) v = Ok (<[length l := v]> (x :: l)).
Proof. unfold set_last. simpl. now rewrite Nat.sub_0_r. Qed.

(** [find_chunk_boundaries] for a positive chunk count, down to its
    loop over the interior boundaries. *)
Lemma find_chunk_boundaries_pos (f : file) k (delim : bytes) :
  0 < k ->
  find_chunk_boundaries f k delim =
  let* (cb, _) :=
    boundaries_loop (S (length (content f))) (py_range 1 k)
      {| content := content f; pos := 0 |} delim
      (Z.of_nat (length (content f)))
      (naive_boundaries (Z.of_nat (length (content f))) k) in
  Ok (sorted_set cb).
Proof.
  intros Hk. unfold find_chunk_boundaries, seek_end, tell, seek, floor_div.
  cbn [pos content bind Z.ltb Z.compare].
  destruct (Z.eqb_spec k 0); [lia|]. cbn [bind].
  set (L := Z.of_nat (length (content f))).
  assert (E : exists x l, map (fun i => i * (L / k)) (py_range 0 (k + 1)) = x :: l
                          /\ length l = Z.to_nat k).
  { destruct (map _ _) as [|x l] eqn:El.
    - apply (f_equal length) in El.
      unfold py_range in El. rewrite length_map, length_seqZ in El.
      simpl in El. lia.
    - exists x, l. split; [reflexivity|].
      apply (f_equal length) in El.
      unfold py_range in El. rewrite length_map, length_seqZ in El.
      simpl in El. lia. }
  destruct E as (x & l & El & Hl).
  rewrite El, set_last_cons. cbn [bind].
  rewrite length_insert. cbn [length].
  replace (Z.of_nat (S (length l)) - 1) with k by lia.
  unfold naive_boundaries. now rewrite El, Hl.
Qed.



(** C3, at the input where the code departs from it: the delimiter
    occurs at offset 8192, after the guess 4097, yet the interior
    boundary is set to the file length 8194 and so the finder returns
    [0, 8194]. *)
Theorem find_chunk_boundaries_misses_straddling :
  occurs_at straddling_source [x58; x59] 8192 /\
  1 * (Z.of_nat (length straddling_source) / 2) = 4097 /\
  snap_loop (S (length straddling_source))
    {| content := straddling_source; pos := Z.to_nat 4097 |}
    [x58; x59] 8194 4097
  = Ok (8194, {| content := straddling_source; pos := Z.to_nat 8194 |}) /\
  find_chunk_boundaries (open straddling_source) 2 [x58; x59] = Ok [0; 8194].
Proof.
  split; [split; [lia|vm_compute; reflexivity]|].
  split; [vm_compute; reflexivity|].
  split; vm_compute; reflexivity.
Qed.

(** With an empty delimiter every read that is not at the end finds it
    at offset 0, so a boundary stays at its guess. *)
Lemma snap_loop_empty_delimiter fuel (f : file) ip :
  0 <= ip <= Z.of_nat (length (content f)) -> pos f = Z.to_nat ip ->
  exists f',
    snap_loop (S fuel) f [] (Z.of_nat (length (content f))) ip = Ok (ip, f') /\
    content f' = content f.
Proof.
  intros Hip Hpos. pose proof mini_chunk_size_pos as Hn.
  rewrite snap_loop_unfold. cbn zeta.
  set (mini := take mini_chunk_size (drop (pos f) (content f))).
  destruct (decide (mini = [])) as [Hm|Hm].
  - assert (Hl : length mini = O) by now rewrite Hm.
    unfold mini in Hl. rewrite length_take, length_drop in Hl.
    assert (E : Z.of_nat (length (content f)) = ip) by lia. rewrite E.
    eexists. split; reflexivity.
  - unfold bytes_find. rewrite find_from_empty_needle. cbn [Z.eqb negb].
    rewrite Z.add_0_r. eexists. split; reflexivity.
Qed.

Lemma boundaries_loop_empty_delimiter (c : bytes) fuel :
  forall (bis : list Z) (f : file) (cb : list Z),
    content f = c ->
    (forall bi, bi ∈ bis ->
       exists g, cb !! (Z.to_nat bi) = Some g /\
                 0 <= g <= Z.of_nat (length c)) ->
    exists f',
      boundaries_loop (S fuel) bis f [] (Z.of_nat (length c)) cb = Ok (cb, f') /\
      content f' = c.
Proof.
  induction bis as [|bi rest IH]; intros f cb Hc Hbis; [now exists f|].
  destruct (Hbis bi) as (g & Hg & Hgr); [left|].
  cbn [boundaries_loop]. unfold get_item. rewrite Hg. cbn [bind].
  unfold seek. destruct (Z.ltb_spec g 0); [lia|]. cbn [bind].
  destruct (snap_loop_empty_delimiter fuel
              {| content := content f; pos := Z.to_nat g |} g)
    as (f2 & Hsnap & Hc2); cbn [content pos]; try rewrite Hc; try easy.
  cbn [content pos] in Hsnap, Hc2. rewrite Hc in Hsnap, Hc2.
  rewrite Hsnap. cbn [bind]. rewrite (list_insert_id _ _ _ Hg).
  apply IH; [exact Hc2|]. intros bj Hbj. apply Hbis. now right.
Qed.

(** C8, as the code has it.  A chunk count of 0 fails with
    [ZeroDivisionError] and a negative one with [IndexError], whatever
    the delimiter; no boundary sequence is returned.  An empty delimiter
    with a positive chunk count does not fail: the finder ends and
    returns the naive boundaries, sorted and without duplicates. *)
Theorem find_chunk_boundaries_degenerate (f : file) (k : Z) (delim : bytes) :
  (k = 0 -> find_chunk_boundaries f k delim = Raise ZeroDivisionError) /\
  (k < 0 -> find_chunk_boundaries f k delim = Raise IndexError) /\
  (0 < k ->
   find_chunk_boundaries f k []
   = Ok (sorted_set (naive_boundaries (Z.of_nat (length (content f))) k))).
Proof.
  split; [|split].
  - intros ->. reflexivity.
  - intros Hk. unfold find_chunk_boundaries, seek_end, tell, seek, floor_div.
    cbn [pos content bind Z.ltb Z.compare].
    destruct (Z.eqb_spec k 0); [lia|]. cbn [bind].
    unfold py_range. now rewrite seqZ_nil by lia.
  - intros Hk. rewrite find_chunk_boundaries_pos by exact Hk.
    set (L := Z.of_nat (length (content f))).
    assert (Hcs : 0 <= L / k) by (apply Z.div_pos; lia).
    assert (Hkcs : k * (L / k) <= L) by (apply Z.mul_div_le; lia).
    destruct (boundaries_loop_empty_delimiter (content f) (length (content f))
                (py_range 1 k) {| content := content f; pos := 0 |}
                (naive_boundaries L k)) as (f' & Hloop & _); [reflexivity| |].
    { intros bi Hbi. apply elem_of_seqZ in Hbi.
      exists (bi * (L / k)). split; [|fold L; nia].
      rewrite naive_boundaries_guess by lia. do 2 f_equal. lia. }
    fold L in Hloop. now rewrite Hloop.
Qed.

(** Instances: the counts 0 and -3, and the empty delimiter. *)
Lemma find_chunk_boundaries_degenerate_witness :
  find_chunk_boundaries (open sample_source) 0 [x3c; x3e]
  = Raise ZeroDivisionError /\
  find_chunk_boundaries (open sample_source) (-3) [x3c; x3e]
  = Raise IndexError /\
  find_chunk_boundaries (open sample_source) 2 []
  = Ok (sorted_set
          (naive_boundaries (Z.of_nat (length (content (open sample_source)))) 2)).
Proof.
  split; [|split].
  - apply (find_chunk_boundaries_degenerate (open sample_source) 0 [x3c; x3e]).
    reflexivity.
  - apply (find_chunk_boundaries_degenerate (open sample_source) (-3) [x3c; x3e]).
    lia.
  - apply (find_chunk_boundaries_degenerate (open sample_source) 2 []).
    lia.
Defined.

(** C8 fails as stated: the finder on the four bytes [abcd] with two
    chunks and the empty delimiter returns [0, 2, 4]; it does not
    fail. *)
Lemma find_chunk_boundaries_empty_delimiter_returns :
  find_chunk_boundaries (open [x61; x62; x63; x64]) 2 [] = Ok [0; 2; 4] /\
  ~ fails (find_chunk_boundaries (open [x61; x62; x63; x64]) 2 []).
Proof.
  split; [reflexivity|]. intros [e He]. vm_compute in He. discriminate.
Qed.

(** * Further properties *)

(** ** More on the merge pass *)

Lemma replace_pass_head a b n ids h :
  head (replace_pass a b n ids) = Some h -> h = n \/ head ids = Some h.
Proof.
  destruct ids as [|x [|y rest]]; simpl; auto.
  destruct ((x =? a) && (y =? b)); simpl; intros [= <-]; auto.
Qed.

Lemma adjacent_cons_inv a b x (l : list Z) :
  adjacent a b (x :: l) -> (x = a /\ head l = Some b) \/ adjacent a b l.
Proof.
  intros [[|i] [Hi Hj]]; simpl in *.
  - left. split; [congruence|]. now rewrite head_lookup.
  - right. now exists i.
Qed.

Lemma adjacent_cons a b x (l : list Z) : adjacent a b l -> adjacent a b (x :: l).
Proof. intros [i [Hi Hj]]. now exists (S i). Qed.

Lemma adjacent_nil a b : ~ adjacent a b [].
Proof. intros [i [Hi _]]. destruct i; discriminate. Qed.

Lemma adjacent_one a b x : ~ adjacent a b [x].
Proof. intros [i [_ Hj]]. destruct i; discriminate. Qed.

Lemma replace_pass_no_adjacent a b n ids :
  n <> a -> n <> b -> ~ adjacent a b (replace_pass a b n ids).
Proof.
  intros Ha Hb.
  induction ids as [|x|x y rest IH1 IH2] using list_pair_ind.
  - apply adjacent_nil.
  - apply adjacent_one.
  - rewrite replace_pass_two.
    destruct ((x =? a) && (y =? b)) eqn:E; intros H;
      apply adjacent_cons_inv in H as [[Hx Hh]|H]; try tauto; try congruence.
    apply replace_pass_head in Hh as [Hh|Hh]; [congruence|].
    simpl in Hh. injection Hh as ->. subst x.
    now rewrite !Z.eqb_refl in E.
Qed.

Lemma replace_pass_fixed a b n ids :
  ~ adjacent a b ids -> replace_pass a b n ids = ids.
Proof.
  induction ids as [|x|x y rest IH1 IH2] using list_pair_ind; try reflexivity.
  intros H. rewrite replace_pass_two.
  destruct ((x =? a) && (y =? b)) eqn:E.
  - exfalso. apply H. apply andb_true_iff in E as [E1 E2].
    apply Z.eqb_eq in E1, E2. subst. now exists O.
  - f_equal. apply IH2. intros H'. apply H. now apply adjacent_cons.
Qed.

Lemma count_replaced_zero a b ids :
  count_replaced a b ids = O -> ~ adjacent a b ids.
Proof.
  induction ids as [|x|x y rest IH1 IH2] using list_pair_ind.
  - intros _. apply adjacent_nil.
  - intros _. apply adjacent_one.
  - rewrite count_replaced_two.
    destruct ((x =? a) && (y =? b)) eqn:E; [discriminate|].
    intros Hc H. apply adjacent_cons_inv in H as [[Hx Hh]|H].
    + simpl in Hh. injection Hh as ->. subst x. now rewrite !Z.eqb_refl in E.
    + now apply IH2.
Qed.

(** X1. If the new index is neither element of the pair, the list that
    [merge] returns holds no adjacent occurrence of the pair, and a
    second [merge] with the same rule returns it unchanged. *)
Theorem merge_idempotent (indices : list Z) (a b new_index : Z) :
  new_index <> a -> new_index <> b ->
  exists out,
    merge indices (a, b) new_index = Ok out /\
    ~ adjacent a b out /\
    merge out (a, b) new_index = Ok out.
Proof.
  intros Ha Hb. exists (replace_pass a b new_index indices).
  split; [apply merge_is_pass|].
  pose proof (replace_pass_no_adjacent a b new_index indices Ha Hb) as Hno.
  split; [exact Hno|]. rewrite merge_is_pass. f_equal.
  now apply replace_pass_fixed.
Qed.

(** An instance: the pair (5, 5) on five 5s. *)
Lemma merge_idempotent_witness :
  exists out,
    merge [5; 5; 5; 5; 5] (5, 5) 9 = Ok out /\
    ~ adjacent 5 5 out /\
    merge out (5, 5) 9 = Ok out.
Proof.
  apply (merge_idempotent [5; 5; 5; 5; 5] 5 5 9); lia.
Defined.

(** X2. [merge] returns its input unchanged exactly when the pair occurs
    at no two adjacent places of it. *)
Theorem merge_unchanged_iff (indices : list Z) (a b new_index : Z) :
  merge indices (a, b) new_index = Ok indices <-> ~ adjacent a b indices.
Proof.
  rewrite merge_is_pass. split.
  - intros [= H]. apply count_replaced_zero.
    pose proof (replace_pass_length a b new_index indices) as Hl.
    rewrite H in Hl. lia.
  - intros H. f_equal. now apply replace_pass_fixed.
Qed.

Lemma replace_pass_elem a b n ids x :
  x ∈ replace_pass a b n ids -> x = n \/ x ∈ ids.
Proof.
  induction ids as [|y|y z rest IH1 IH2] using list_pair_ind; simpl; auto.
  fold (replace_pass a b n (z :: rest)).
  destruct ((y =? a) && (z =? b)); intros H;
    apply elem_of_cons in H as [->|H]; auto.
  - destruct (IH1 H) as [->|H']; auto. right. now do 2 right.
  - right. left.
  - destruct (IH2 H) as [->|H']; auto. right. now right.
Qed.

Lemma apply_rules_elem rules : forall ids x,
  x ∈ apply_rules rules ids -> x ∈ ids \/ x ∈ map snd rules.
Proof.
  induction rules as [|[[a b] n] rules IH]; intros ids x H; [now left|].
  simpl in H. apply IH in H as [H|H].
  - apply replace_pass_elem in H as [->|H]; [right; left|now left].
  - right. now right.
Qed.

(** X3. Every id that [encode] returns is a byte value of the string
    (0 to 255) or the new index of one of the merge rules. *)
Theorem bpe_encode_ids (params : BPETokenizerParams) (s : str) (ids : list Z) :
  BytePairEncodingTokenizer.encode params s = Ok ids ->
  Forall (fun id => 0 <= id <= 255 \/ id ∈ map snd (merges params)) ids.
Proof.
  rewrite bpe_encode_unfold. intros H.
  apply bind_ok_inv in H as (bs & _ & [= <-]).
  apply Forall_forall. intros x Hx.
  apply apply_rules_elem in Hx as [Hx|Hx]; [left|now right].
  pose proof (ints_of_bytes_range bs) as Hr.
  rewrite Forall_forall in Hr. now apply Hr.
Qed.

(** An instance: a string of three characters and two rules. *)
Lemma bpe_encode_ids_witness :
  Forall (fun id => 0 <= id <= 255 \/
                    id ∈ map snd [((0xC3, 0xA9), 256); ((104, 256), 257)])
    [257; 0xE2; 0x82; 0xAC].
Proof.
  apply (bpe_encode_ids
           {| vocab := ∅; merges := [((0xC3, 0xA9), 256); ((104, 256), 257)] |}
           [104; 0xE9; 0x20AC]).
  reflexivity.
Defined.

(** ** Decoding what was encoded *)

Lemma bytes_join_cons (o : option bytes) (items : list (option bytes)) :
  bytes_join [] (o :: items) =
  match o with
  | None => Raise TypeError
  | Some b => let* r := bytes_join [] items in Ok (b ++ r)
  end.
Proof.
  destruct o as [b|]; [|reflexivity]. cbn [bytes_join].
  destruct (bytes_join [] items) as [r| |] eqn:E; try reflexivity.
  destruct items; [|reflexivity].
  injection E as <-. simpl. now rewrite app_nil_r.
Qed.

Lemma bytes_join_replace_pass (v : gmap Z bytes) a b n va vb (ids : list Z) :
  v !! a = Some va -> v !! b = Some vb -> v !! n = Some (va ++ vb) ->
  bytes_join [] (map (fun i => v !! i) (replace_pass a b n ids)) =
  bytes_join [] (map (fun i => v !! i) ids).
Proof.
  intros Ha Hb Hn.
  induction ids as [|x|x y rest IH1 IH2] using list_pair_ind; try reflexivity.
  rewrite replace_pass_two.
  destruct ((x =? a) && (y =? b)) eqn:E.
  - apply andb_true_iff in E as [E1 E2]. apply Z.eqb_eq in E1, E2. subst x y.
    cbn [map]. rewrite !bytes_join_cons. unfold bytes in *.
    rewrite Ha, Hb, Hn, IH1.
    match goal with
    | |- context [bytes_join [] ?l] => destruct (bytes_join [] l)
    end; simpl; try reflexivity.
    now rewrite <- app_assoc.
  - cbn [map]. rewrite !(bytes_join_cons (v !! x)).
    cbn [map] in IH2. now rewrite IH2.
Qed.

(** X4. If the vocabulary holds both ids of a pair and gives the new
    index their bytes joined, [merge] does not change what [decode]
    gives: the merged list decodes as the list it was made from, to the
    same string or the same error. *)
Theorem merge_keeps_decoding (params : BPETokenizerParams)
    (indices : list Z) (a b new_index : Z) :
  rule_in_vocab (vocab params) ((a, b), new_index) ->
  exists out,
    merge indices (a, b) new_index = Ok out /\
    BytePairEncodingTokenizer.decode params out =
    BytePairEncodingTokenizer.decode params indices.
Proof.
  intros (va & vb & Ha & Hb & Hn). simpl in Ha, Hb, Hn.
  exists (replace_pass a b new_index indices).
  split; [apply merge_is_pass|]. unfold BytePairEncodingTokenizer.decode.
  now rewrite (bytes_join_replace_pass _ a b new_index va vb).
Qed.

(** An instance: the two bytes of [e-acute] merged into the id 256. *)
Lemma merge_keeps_decoding_witness :
  exists out,
    merge [104; 0xC3; 0xA9] (0xC3, 0xA9) 256 = Ok out /\
    BytePairEncodingTokenizer.decode
      {| vocab := {[ 104 := [x68]; 0xC3 := [xc3]; 0xA9 := [xa9];
                     256 := [xc3; xa9] ]};
         merges := [((0xC3, 0xA9), 256)] |} out =
    BytePairEncodingTokenizer.decode
      {| vocab := {[ 104 := [x68]; 0xC3 := [xc3]; 0xA9 := [xa9];
                     256 := [xc3; xa9] ]};
         merges := [((0xC3, 0xA9), 256)] |} [104; 0xC3; 0xA9].
Proof.
  apply (merge_keeps_decoding
           {| vocab := {[ 104 := [x68]; 0xC3 := [xc3]; 0xA9 := [xa9];
                          256 := [xc3; xa9] ]};
              merges := [((0xC3, 0xA9), 256)] |}
           [104; 0xC3; 0xA9] 0xC3 0xA9 256).
  exists [xc3], [xa9]. repeat split; reflexivity.
Defined.

Lemma bytes_join_apply_rules (v : gmap Z bytes) rules : forall ids,
  Forall (rule_in_vocab v) rules ->
  bytes_join [] (map (fun i => v !! i) (apply_rules rules ids)) =
  bytes_join [] (map (fun i => v !! i) ids).
Proof.
  induction rules as [|[[a b] n] rules IH]; intros ids Hr; [reflexivity|].
  apply Forall_cons in Hr as [(va & vb & Ha & Hb & Hn) Hr]. simpl in Ha, Hb, Hn.
  simpl. rewrite IH by exact Hr.
  now apply (bytes_join_replace_pass _ a b n va vb).
Qed.

Lemma bytes_join_byte_ids (v : gmap Z bytes) (bs : bytes) :
  Forall (fun b => v !! int_of_byte b = Some [b]) bs ->
  bytes_join [] (map (fun i => v !! i) (map int_of_byte bs)) = Ok bs.
Proof.
  induction 1 as [|b bs Hb _ IH]; [reflexivity|].
  cbn [map]. rewrite bytes_join_cons. unfold bytes in *. now rewrite Hb, IH.
Qed.

(** X5. Round trip of the BPE tokenizer: if the vocabulary agrees with
    every merge rule and maps the id of every UTF-8 byte of the string to
    that one byte, then [decode] of [encode] of a valid Unicode string is
    the string. *)
Theorem bpe_round_trip (params : BPETokenizerParams) (s : str) (bs : bytes) :
  str_encode_utf8 s = Ok bs ->
  Forall (rule_in_vocab (vocab params)) (merges params) ->
  Forall (fun b => vocab params !! int_of_byte b = Some [b]) bs ->
  exists ids,
    BytePairEncodingTokenizer.encode params s = Ok ids /\
    BytePairEncodingTokenizer.decode params ids = Ok s.
Proof.
  intros Hbs Hrules Hbytes.
  exists (apply_rules (merges params) (map int_of_byte bs)).
  split; [now rewrite bpe_encode_unfold, Hbs|].
  unfold BytePairEncodingTokenizer.decode.
  rewrite bytes_join_apply_rules by exact Hrules.
  rewrite bytes_join_byte_ids by exact Hbytes. simpl.
  now apply decode_encode_utf8.
Qed.

(** An instance: [h] and [e-acute] with the rule that merges the two
    bytes of [e-acute]. *)
Lemma bpe_round_trip_witness :
  exists ids,
    BytePairEncodingTokenizer.encode
      {| vocab := {[ 104 := [x68]; 0xC3 := [xc3]; 0xA9 := [xa9];
                     256 := [xc3; xa9] ]};
         merges := [((0xC3, 0xA9), 256)] |} [104; 0xE9] = Ok ids /\
    BytePairEncodingTokenizer.decode
      {| vocab := {[ 104 := [x68]; 0xC3 := [xc3]; 0xA9 := [xa9];
                     256 := [xc3; xa9] ]};
         merges := [((0xC3, 0xA9), 256)] |} ids = Ok [104; 0xE9].
Proof.
  apply (bpe_round_trip
           {| vocab := {[ 104 := [x68]; 0xC3 := [xc3]; 0xA9 := [xa9];
                          256 := [xc3; xa9] ]};
              merges := [((0xC3, 0xA9), 256)] |}
           [104; 0xE9] [x68; xc3; xa9]).
  - reflexivity.
  - repeat constructor. exists [xc3], [xa9]. repeat split; reflexivity.
  - repeat constructor.
Defined.

(** ** More on the code-point and raw-byte tokenizers *)

Lemma bytes_of_ints_inv (ids : list Z) : forall bs,
  bytes_of_ints ids = Ok bs -> map int_of_byte bs = ids.
Proof.
  induction ids as [|i ids IH]; intros bs H; [now injection H as <-|].
  simpl in H. destruct ((0 <=? i) && (i <? 256)) eqn:E; [|discriminate].
  apply bind_ok_inv in H as (bs' & Hbs' & [= <-]). bool_hyps.
  simpl. rewrite int_of_byte_of_int by lia. f_equal. now apply IH.
Qed.

Lemma character_decode_inv (ids : list Z) : forall s,
  CharacterTokenizer.decode ids = Ok s -> s = ids /\ is_str ids.
Proof.
  induction ids as [|i ids IH]; intros s H.
  - injection H as <-. split; [reflexivity|constructor].
  - simpl in H. unfold chr in H.
    destruct ((0 <=? i) && (i <=? 0x10FFFF)) eqn:E; [|discriminate].
    cbn [bind] in H. apply bind_ok_inv in H as (s' & Hs' & [= <-]).
    destruct (IH _ Hs') as [-> Hstr]. bool_hyps.
    split; [reflexivity|]. constructor; [split; lia|exact Hstr].
Qed.

(** X6. The decoders invert the encoders only: when [decode] of the
    code-point tokenizer, or of the raw-byte tokenizer, returns a string
    for a list of ids, [encode] of that string returns the same list. *)
Theorem tokenizers_decode_then_encode (ids : list Z) (s : str) :
  (CharacterTokenizer.decode ids = Ok s ->
   CharacterTokenizer.encode s = Ok ids) /\
  (ByteTokenizer.decode ids = Ok s ->
   ByteTokenizer.encode s = Ok ids /\ valid_unicode s).
Proof.
  split.
  - intros H. apply character_decode_inv in H as [-> _].
    unfold CharacterTokenizer.encode. f_equal. apply map_id.
  - intros H. unfold ByteTokenizer.decode in H.
    apply bind_ok_inv in H as (bs & Hbs & Hdec).
    apply encode_decode_utf8 in Hdec.
    split; [|now apply (str_encode_utf8_inv s bs)].
    unfold ByteTokenizer.encode. rewrite Hdec. simpl. f_equal.
    now apply bytes_of_ints_inv.
Qed.

(** Instances: code points, one of them a surrogate, and the three
    bytes of the euro sign. *)
Lemma tokenizers_decode_then_encode_witness :
  CharacterTokenizer.encode [104; 0xD800] = Ok [104; 0xD800] /\
  (ByteTokenizer.encode [0x20AC] = Ok [0xE2; 0x82; 0xAC] /\
   valid_unicode [0x20AC]).
Proof.
  split.
  - apply (proj1 (tokenizers_decode_then_encode [104; 0xD800] [104; 0xD800])).
    reflexivity.
  - apply (proj2 (tokenizers_decode_then_encode [0xE2; 0x82; 0xAC] [0x20AC])).
    reflexivity.
Defined.

Lemma bytes_of_ints_ok (ids : list Z) :
  Forall (fun id => 0 <= id < 256) ids ->
  bytes_of_ints ids = Ok (map byte_of_int ids).
Proof.
  induction 1 as [|i ids Hi _ IH]; [reflexivity|].
  simpl. destruct (Z.leb_spec 0 i); [|lia].
  destruct (Z.ltb_spec i 256); [|lia]. simpl. now rewrite IH.
Qed.

Lemma bytes_of_ints_bad (ids : list Z) :
  Exists (fun id => ~ 0 <= id < 256) ids ->
  bytes_of_ints ids = Raise ValueError.
Proof.
  induction ids as [|i ids IH]; intros H; [inversion H|].
  simpl. destruct ((0 <=? i) && (i <? 256)) eqn:E; [|reflexivity].
  bool_hyps. apply Exists_cons in H as [H|H]; [lia|].
  now rewrite (IH H).
Qed.

(** X7. [decode] of the raw-byte tokenizer raises an exception of class
    [ValueError] itself, from [bytes(indices)], when an id is outside
    [range(256)], whatever the other ids are; when all ids are byte
    values its result is that of the UTF-8 decoder on those bytes: a
    string, or an exception of class [UnicodeDecodeError]. *)
Theorem byte_decode_errors (ids : list Z) :
  (Exists (fun id => ~ 0 <= id < 256) ids ->
   ByteTokenizer.decode ids = Raise ValueError) /\
  (Forall (fun id => 0 <= id < 256) ids ->
   ByteTokenizer.decode ids = bytes_decode_utf8 (map byte_of_int ids) /\
   ((exists s, ByteTokenizer.decode ids = Ok s) \/
    ByteTokenizer.decode ids = Raise UnicodeDecodeError)).
Proof.
  unfold ByteTokenizer.decode. split.
  - intros H. now rewrite bytes_of_ints_bad.
  - intros H. rewrite bytes_of_ints_ok by exact H. cbn [bind].
    split; [reflexivity|apply bytes_decode_utf8_total].
Qed.

(** Instances: the id 256 after a good one, and a lone continuation
    byte. *)
Lemma byte_decode_errors_witness :
  ByteTokenizer.decode [104; 256] = Raise ValueError /\
  (ByteTokenizer.decode [104; 0x80]
   = bytes_decode_utf8 (map byte_of_int [104; 0x80]) /\
   ((exists s, ByteTokenizer.decode [104; 0x80] = Ok s) \/
    ByteTokenizer.decode [104; 0x80] = Raise UnicodeDecodeError)).
Proof.
  split.
  - apply (proj1 (byte_decode_errors [104; 256])).
    right. left. lia.
  - apply (proj2 (byte_decode_errors [104; 0x80])).
    repeat constructor; lia.
Defined.

Lemma utf8_encode_char_length c enc :
  utf8_encode_char c = Ok enc ->
  (1 <= length enc <= 4)%nat /\ (length enc = 1%nat <-> c < 0x80).
Proof.
  unfold utf8_encode_char.
  destruct (Z.ltb_spec c 0); [discriminate|].
  destruct (Z.ltb_spec c 0x80); [intros [= <-]; simpl; split; [lia|tauto]|].
  destruct (Z.ltb_spec c 0x800); [intros [= <-]; simpl; split; lia|].
  destruct (Z.ltb_spec c 0x10000).
  - destruct ((0xD800 <=? c) && (c <=? 0xDFFF)); [discriminate|].
    intros [= <-]; simpl; split; lia.
  - destruct (Z.ltb_spec c 0x110000); [|discriminate].
    intros [= <-]; simpl; split; lia.
Qed.

Lemma str_encode_utf8_length s : forall bs,
  str_encode_utf8 s = Ok bs ->
  (length s <= length bs <= 4 * length s)%nat /\
  (length bs = length s <-> Forall (fun c => c < 0x80) s).
Proof.
  induction s as [|c s IH]; intros bs H.
  - injection H as <-. simpl. split; [lia|]. split; [constructor|reflexivity].
  - simpl in H. apply bind_ok_inv in H as (enc & Henc & H).
    apply bind_ok_inv in H as (bs' & Hbs' & [= <-]).
    destruct (utf8_encode_char_length _ _ Henc) as [Hl Hone].
    destruct (IH _ Hbs') as [Hl' Hall].
    rewrite length_app. cbn [length]. split; [lia|]. split.
    + intros E. constructor; [apply Hone; lia|apply Hall; lia].
    + intros Hf. apply Forall_cons in Hf as [Hc Hf].
      apply Hone in Hc. apply Hall in Hf. lia.
Qed.

Lemma str_encode_utf8_ascii s :
  Forall (fun c => 0 <= c < 0x80) s ->
  str_encode_utf8 s = Ok (map byte_of_int s).
Proof.
  induction 1 as [|c s Hc _ IH]; [reflexivity|].
  simpl. rewrite IH. unfold utf8_encode_char.
  destruct (Z.ltb_spec c 0); [lia|].
  now destruct (Z.ltb_spec c 0x80); [|lia].
Qed.

Lemma map_int_of_byte_of_int (s : list Z) :
  Forall (fun c => 0 <= c < 0x80) s -> map int_of_byte (map byte_of_int s) = s.
Proof.
  induction 1 as [|c s Hc _ IH]; [reflexivity|].
  simpl. rewrite int_of_byte_of_int by lia. now rewrite IH.
Qed.

(** X8. Size of the raw-byte encoding: [encode] returns at least one id
    per character and at most four, and exactly one per character if and
    only if the string is ASCII. *)
Theorem byte_encode_length (s : str) (ids : list Z) :
  ByteTokenizer.encode s = Ok ids ->
  (length s <= length ids <= 4 * length s)%nat /\
  (length ids = length s <-> Forall (fun c => c < 0x80) s).
Proof.
  unfold ByteTokenizer.encode. intros H.
  apply bind_ok_inv in H as (bs & Hbs & [= <-]).
  rewrite length_map. now apply str_encode_utf8_length.
Qed.

(** An instance: one ASCII character and the euro sign. *)
Lemma byte_encode_length_witness :
  (length [104; 0x20AC] <= length [104; 0xE2; 0x82; 0xAC]
   <= 4 * length [104; 0x20AC])%nat /\
  (length [104; 0xE2; 0x82; 0xAC] = length [104; 0x20AC] <->
   Forall (fun c => c < 0x80) [104; 0x20AC]).
Proof.
  apply (byte_encode_length [104; 0x20AC] [104; 0xE2; 0x82; 0xAC]).
  reflexivity.
Defined.

(** X9. The raw-byte tokenizer and the code-point tokenizer encode a
    string to the same ids exactly when the string is ASCII. *)
Theorem byte_encode_is_character_encode_iff (s : str) :
  ByteTokenizer.encode s = CharacterTokenizer.encode s <->
  Forall (fun c => 0 <= c < 0x80) s.
Proof.
  split.
  - intros H. unfold ByteTokenizer.encode, CharacterTokenizer.encode in H.
    apply bind_ok_inv in H as (bs & Hbs & [= H]).
    pose proof (str_encode_utf8_inv _ _ Hbs) as Hvalid.
    destruct (str_encode_utf8_length _ _ Hbs) as [_ Hascii].
    assert (Hlt : Forall (fun c => c < 0x80) s).
    { apply Hascii. apply (f_equal length) in H.
      now rewrite !length_map in H. }
    unfold valid_unicode in Hvalid.
    apply Forall_forall. intros c Hc.
    rewrite Forall_forall in Hlt. rewrite Forall_forall in Hvalid.
    destruct (Hvalid c Hc) as [[Hlo _] _]. specialize (Hlt c Hc). lia.
  - intros H. unfold ByteTokenizer.encode, CharacterTokenizer.encode.
    rewrite str_encode_utf8_ascii by exact H. simpl.
    rewrite map_int_of_byte_of_int by exact H. f_equal.
    symmetry. apply map_id.
Qed.

Lemma replace_pass_nonempty a b n (ids : list Z) :
  ids <> [] -> replace_pass a b n ids <> [].
Proof.
  destruct ids as [|x [|y rest]]; [congruence|discriminate|].
  intros _. rewrite replace_pass_two. now destruct ((x =? a) && (y =? b)).
Qed.

Lemma apply_rules_nonempty rules : forall ids : list Z,
  ids <> [] -> apply_rules rules ids <> [].
Proof.
  induction rules as [|[[a b] n] rules IH]; intros ids H; [exact H|].
  simpl. now apply IH, replace_pass_nonempty.
Qed.

Lemma true_div_at_least_one (n m : nat) :
  (0 < m <= n)%nat ->
  exists q, true_div (Z.of_nat n) (Z.of_nat m) = Ok q /\ (1 <= q)%Q /\
            (n = m -> (q == 1)%Q).
Proof.
  intros Hm. unfold true_div.
  destruct (Z.eqb_spec (Z.of_nat m) 0); [lia|].
  eexists. split; [reflexivity|]. split.
  - apply Qle_shift_div_l.
    + unfold Qlt. simpl. lia.
    + unfold Qle. simpl. lia.
  - intros ->. unfold Qdiv. apply Qmult_inv_r.
    unfold Qeq. simpl. lia.
Qed.

(** X10. For a non-empty valid Unicode string the compression ratio of
    what a tokenizer of this module returns is defined and at least 1:
    with the BPE tokenizer, whatever its merge rules, and with the
    raw-byte tokenizer, where it is exactly 1. *)
Theorem compression_ratio_at_least_one (params : BPETokenizerParams) (s : str) :
  valid_unicode s -> s <> [] ->
  (exists ids q,
     BytePairEncodingTokenizer.encode params s = Ok ids /\
     get_compression_ratio s ids = Ok q /\ (1 <= q)%Q) /\
  (exists ids q,
     ByteTokenizer.encode s = Ok ids /\
     get_compression_ratio s ids = Ok q /\ (q == 1)%Q).
Proof.
  intros Hs Hne. destruct (str_encode_utf8_valid s Hs) as [bs Hbs].
  destruct (str_encode_utf8_length _ _ Hbs) as [[Hlen _] _].
  assert (Hs0 : (0 < length s)%nat) by (destruct s; [congruence|simpl; lia]).
  split.
  - set (ids := apply_rules (merges params) (map int_of_byte bs)).
    assert (Hids : (0 < length ids <= length bs)%nat).
    { split.
      - assert (ids <> []) as H.
        { apply apply_rules_nonempty. destruct bs; [simpl in Hlen; lia|discriminate]. }
        destruct ids; [congruence|simpl; lia].
      - unfold ids. etransitivity; [apply apply_rules_length|].
        now rewrite length_map. }
    destruct (true_div_at_least_one _ _ Hids) as (q & Hq & Hle & _).
    exists ids, q. split; [now rewrite bpe_encode_unfold, Hbs|].
    split; [|exact Hle]. unfold get_compression_ratio. now rewrite Hbs.
  - assert (Hids : (0 < length (map int_of_byte bs) <= length bs)%nat)
      by (rewrite length_map; lia).
    destruct (true_div_at_least_one _ _ Hids) as (q & Hq & _ & Heq).
    exists (map int_of_byte bs), q.
    split; [unfold ByteTokenizer.encode; now rewrite Hbs|].
    split; [unfold get_compression_ratio; now rewrite Hbs|].
    apply Heq. now rewrite length_map.
Qed.

(** An instance: [h] and two [e-acute], with the rule for [e-acute]. *)
Lemma compression_ratio_at_least_one_witness :
  (exists ids q,
     BytePairEncodingTokenizer.encode
       {| vocab := ∅; merges := [((0xC3, 0xA9), 256)] |} [104; 0xE9; 0xE9]
     = Ok ids /\
     get_compression_ratio [104; 0xE9; 0xE9] ids = Ok q /\ (1 <= q)%Q) /\
  (exists ids q,
     ByteTokenizer.encode [104; 0xE9; 0xE9] = Ok ids /\
     get_compression_ratio [104; 0xE9; 0xE9] ids = Ok q /\ (q == 1)%Q).
Proof.
  apply (compression_ratio_at_least_one
           {| vocab := ∅; merges := [((0xC3, 0xA9), 256)] |} [104; 0xE9; 0xE9]).
  - repeat constructor; unfold is_surrogate; lia.
  - discriminate.
Defined.

Lemma utf8_encode_char_outcome c :
  (exists enc, utf8_encode_char c = Ok enc) \/
  utf8_encode_char c = Raise UnicodeEncodeError.
Proof.
  unfold utf8_encode_char.
  repeat match goal with
         | |- context [if ?b then _ else _] => destruct b
         end; eauto.
Qed.

Lemma str_encode_utf8_outcome s :
  (exists bs, str_encode_utf8 s = Ok bs) \/
  str_encode_utf8 s = Raise UnicodeEncodeError.
Proof.
  induction s as [|c s IH]; [left; now exists []|].
  simpl. destruct (utf8_encode_char_outcome c) as [[enc ->]| ->]; [|now right].
  destruct IH as [[bs ->]| ->]; [left; eexists; reflexivity|now right].
Qed.

Lemma str_encode_utf8_invalid s :
  ~ valid_unicode s -> str_encode_utf8 s = Raise UnicodeEncodeError.
Proof.
  intros H. destruct (str_encode_utf8_outcome s) as [[bs Hbs]|E]; [|exact E].
  exfalso. apply H. now apply (str_encode_utf8_inv s bs).
Qed.

(** X11. A Python string that is not valid Unicode (it holds a lone
    surrogate) still round-trips through the code-point tokenizer, but
    the raw-byte tokenizer, the BPE tokenizer and the compression ratio
    raise [UnicodeEncodeError] on it, whatever the merge rules and the
    ids given. *)
Theorem lone_surrogate_behaviour (s : str) :
  is_str s -> ~ valid_unicode s ->
  (exists ids, CharacterTokenizer.encode s = Ok ids /\
               CharacterTokenizer.decode ids = Ok s) /\
  ByteTokenizer.encode s = Raise UnicodeEncodeError /\
  (forall params,
     BytePairEncodingTokenizer.encode params s = Raise UnicodeEncodeError) /\
  (forall ids, get_compression_ratio s ids = Raise UnicodeEncodeError).
Proof.
  intros Hstr Hbad. pose proof (str_encode_utf8_invalid s Hbad) as E.
  split; [|split; [|split]].
  - exists (map ord s). split; [reflexivity|now apply character_decode_encode].
  - unfold ByteTokenizer.encode. now rewrite E.
  - intros params. now rewrite bpe_encode_unfold, E.
  - intros ids. unfold get_compression_ratio. now rewrite E.
Qed.

(** An instance: [h] followed by the surrogate D800. *)
Lemma lone_surrogate_behaviour_witness :
  (exists ids, CharacterTokenizer.encode [104; 0xD800] = Ok ids /\
               CharacterTokenizer.decode ids = Ok [104; 0xD800]) /\
  ByteTokenizer.encode [104; 0xD800] = Raise UnicodeEncodeError /\
  (forall params,
     BytePairEncodingTokenizer.encode params [104; 0xD800]
     = Raise UnicodeEncodeError) /\
  (forall ids, get_compression_ratio [104; 0xD800] ids
               = Raise UnicodeEncodeError).
Proof.
  apply (lone_surrogate_behaviour [104; 0xD800]).
  - repeat constructor; lia.
  - intros H. apply Forall_cons in H as [_ H].
    apply Forall_cons in H as [[_ H] _]. apply H. unfold is_surrogate. lia.
Defined.

Lemma bytes_join_app (l1 l2 : list (option bytes)) :
  bytes_join [] (l1 ++ l2) =
  let* a := bytes_join [] l1 in
  let* b := bytes_join [] l2 in
  Ok (a ++ b).
Proof.
  induction l1 as [|o l1 IH].
  - simpl. now destruct (bytes_join [] l2).
  - rewrite <- app_comm_cons, !bytes_join_cons. destruct o; [|reflexivity].
    rewrite IH. destruct (bytes_join [] l1); simpl; try reflexivity.
    destruct (bytes_join [] l2); simpl; try reflexivity.
    now rewrite app_assoc.
Qed.

Lemma str_encode_utf8_app s1 : forall s2 b1 b2,
  str_encode_utf8 s1 = Ok b1 -> str_encode_utf8 s2 = Ok b2 ->
  str_encode_utf8 (s1 ++ s2) = Ok (b1 ++ b2).
Proof.
  induction s1 as [|c s1 IH]; intros s2 b1 b2 H1 H2.
  - now injection H1 as <-.
  - simpl in H1. apply bind_ok_inv in H1 as (enc & Henc & H1).
    apply bind_ok_inv in H1 as (b1' & Hb1' & [= <-]).
    simpl. rewrite Henc. simpl. rewrite (IH _ _ _ Hb1' H2). simpl.
    now rewrite app_assoc.
Qed.

Lemma bytes_decode_utf8_app b1 b2 s1 s2 :
  bytes_decode_utf8 b1 = Ok s1 -> bytes_decode_utf8 b2 = Ok s2 ->
  bytes_decode_utf8 (b1 ++ b2) = Ok (s1 ++ s2).
Proof.
  intros H1 H2. apply encode_decode_utf8 in H1, H2.
  apply decode_encode_utf8. now apply str_encode_utf8_app.
Qed.

Lemma bytes_of_ints_app (l1 l2 : list Z) b1 b2 :
  bytes_of_ints l1 = Ok b1 -> bytes_of_ints l2 = Ok b2 ->
  bytes_of_ints (l1 ++ l2) = Ok (b1 ++ b2).
Proof.
  revert b1. induction l1 as [|i l1 IH]; intros b1 H1 H2.
  - now injection H1 as <-.
  - simpl in H1 |- *. destruct ((0 <=? i) && (i <? 256)); [|discriminate].
    apply bind_ok_inv in H1 as (b1' & Hb1' & [= <-]).
    now rewrite (IH _ Hb1' H2).
Qed.

(** X12. Decoding goes through concatenation: if two id lists each
    decode to a string, their concatenation decodes to the two strings
    joined, for the BPE tokenizer and for the raw-byte tokenizer. *)
Theorem decode_concatenation (params : BPETokenizerParams)
    (ids1 ids2 : list Z) (s1 s2 : str) :
  (BytePairEncodingTokenizer.decode params ids1 = Ok s1 ->
   BytePairEncodingTokenizer.decode params ids2 = Ok s2 ->
   BytePairEncodingTokenizer.decode params (ids1 ++ ids2) = Ok (s1 ++ s2)) /\
  (ByteTokenizer.decode ids1 = Ok s1 ->
   ByteTokenizer.decode ids2 = Ok s2 ->
   ByteTokenizer.decode (ids1 ++ ids2) = Ok (s1 ++ s2)).
Proof.
  split.
  - unfold BytePairEncodingTokenizer.decode. intros H1 H2.
    apply bind_ok_inv in H1 as (b1 & Hb1 & H1).
    apply bind_ok_inv in H2 as (b2 & Hb2 & H2).
    rewrite map_app, bytes_join_app, Hb1, Hb2. simpl.
    now apply bytes_decode_utf8_app.
  - unfold ByteTokenizer.decode. intros H1 H2.
    apply bind_ok_inv in H1 as (b1 & Hb1 & H1).
    apply bind_ok_inv in H2 as (b2 & Hb2 & H2).
    rewrite (bytes_of_ints_app _ _ _ _ Hb1 Hb2). simpl.
    now apply bytes_decode_utf8_app.
Qed.

(** Instances with the sample vocabulary and with raw bytes. *)
Lemma decode_concatenation_witness :
  BytePairEncodingTokenizer.decode sample_params ([0; 256] ++ [256])
  = Ok ([104; 0xE9] ++ [0xE9]) /\
  ByteTokenizer.decode ([104] ++ [0xE2; 0x82; 0xAC]) = Ok ([104] ++ [0x20AC]).
Proof.
  split.
  - apply (proj1 (decode_concatenation sample_params
                    [0; 256] [256] [104; 0xE9] [0xE9])); reflexivity.
  - apply (proj2 (decode_concatenation sample_params
                    [104] [0xE2; 0x82; 0xAC] [104] [0x20AC])); reflexivity.
Defined.

(** ** More on the chunk boundary finder *)

(** The list of boundaries before [sorted(set(...))], for a positive
    chunk count: the result of the loop, entry by entry. *)
Lemma find_chunk_boundaries_entries (f : file) (k : Z) (delim : bytes) :
  0 < k ->
  let c := content f in
  let L := Z.of_nat (length c) in
  exists cb f',
    boundaries_loop (S (length c)) (py_range 1 k)
      {| content := c; pos := 0 |} delim L (naive_boundaries L k)
    = Ok (cb, f') /\
    find_chunk_boundaries f k delim = Ok (sorted_set cb) /\
    length cb = S (Z.to_nat k) /\
    forall (i : nat) p, cb !! i = Some p ->
      (i = O /\ p = 0) \/ (i = Z.to_nat k /\ p = L) \/
      (1 <= Z.of_nat i < k /\ snapped c delim (Z.of_nat i * (L / k)) p).
Proof.
  intros Hk c L. rewrite find_chunk_boundaries_pos by exact Hk.
  assert (Hcs : 0 <= L / k) by (apply Z.div_pos; lia).
  assert (Hkcs : k * (L / k) <= L) by (apply Z.mul_div_le; lia).
  destruct (boundaries_loop_spec c delim (S (length c)) ltac:(lia)
              (py_range 1 k) {| content := c; pos := 0 |}
              (naive_boundaries L k))
    as (cb & f' & Hloop & Hlen & Hcb); [reflexivity|apply NoDup_seqZ| |].
  { intros bi Hbi. apply elem_of_seqZ in Hbi. split; [lia|].
    exists (bi * (L / k)). split; [|fold L; nia].
    rewrite naive_boundaries_guess by lia. do 2 f_equal. lia. }
  fold c L. fold L in Hloop.
  exists cb, f'. split; [exact Hloop|]. rewrite Hloop. cbn [bind].
  split; [reflexivity|].
  rewrite naive_boundaries_length in Hlen by exact Hk. split; [exact Hlen|].
  intros i p Hp. pose proof (lookup_lt_Some _ _ _ Hp) as Hi. rewrite Hlen in Hi.
  destruct (decide (i = Z.to_nat k)) as [->|Hik].
  - destruct (Hcb _ _ (naive_boundaries_last L k Hk)) as (b & Hb & Hcase).
    right; left. split; [reflexivity|].
    destruct Hcase as [[_ ->]|[Hin _]]; [congruence|].
    apply elem_of_seqZ in Hin. lia.
  - destruct (Hcb i _ (naive_boundaries_guess L k i ltac:(lia)))
      as (b & Hb & Hcase).
    assert (b = p) as -> by congruence.
    destruct Hcase as [[Hnin ->]|[Hin Hs]].
    + left. destruct i; [split; [reflexivity|lia]|].
      exfalso. apply Hnin. apply elem_of_seqZ. lia.
    + right; right. apply elem_of_seqZ in Hin. split; [lia|exact Hs].
Qed.

(** The returned list: increasing from 0 to the file length, every point
    an entry of the list before. *)
Lemma find_chunk_boundaries_sorted (f : file) (k : Z) (delim : bytes) :
  0 < k ->
  let c := content f in
  let L := Z.of_nat (length c) in
  exists bounds,
    find_chunk_boundaries f k delim = Ok bounds /\
    StronglySorted Z.lt bounds /\
    head bounds = Some 0 /\ last bounds = Some L /\
    (forall p, p ∈ bounds -> p = 0 \/ p = L \/
       exists bi, 1 <= bi < k /\ bi * (L / k) <= p < L /\ occurs_at c delim p).
Proof.
  intros Hk c L.
  destruct (find_chunk_boundaries_entries f k delim Hk)
    as (cb & f' & _ & Hres & Hlen & Hentry). fold c L in Hres, Hentry.
  assert (Hcs : 0 <= L / k) by (apply Z.div_pos; lia).
  assert (Hat : forall i : nat, (i <= Z.to_nat k)%nat -> is_Some (cb !! i)).
  { intros i Hi. apply lookup_lt_is_Some. lia. }
  assert (Hrange : forall p, p ∈ cb -> 0 <= p <= L).
  { intros p Hp. apply list_elem_of_lookup in Hp as [i Hi].
    destruct (Hentry _ _ Hi) as [[_ ->]|[[_ ->]|[Hbi Hs]]]; try lia.
    apply (snapped_range c delim (Z.of_nat i * (L / k))); [nia|exact Hs]. }
  assert (H0 : 0 ∈ cb).
  { destruct (Hat O ltac:(lia)) as [p Hp].
    destruct (Hentry _ _ Hp) as [[_ ->]|[[E ->]|[Hbi _]]]; try lia.
    now apply list_elem_of_lookup_2 in Hp. }
  assert (HL : L ∈ cb).
  { destruct (Hat (Z.to_nat k) ltac:(lia)) as [p Hp].
    destruct (Hentry _ _ Hp) as [[E _]|[[_ ->]|[Hbi _]]]; try lia.
    now apply list_elem_of_lookup_2 in Hp. }
  exists (sorted_set cb). split; [exact Hres|].
  split; [apply sorted_set_increasing|]. split.
  { apply increasing_head; [apply sorted_set_increasing|now rewrite sorted_set_elem|].
    intros x Hx. rewrite sorted_set_elem in Hx. now apply Hrange. }
  split.
  { apply increasing_last; [apply sorted_set_increasing|now rewrite sorted_set_elem|].
    intros x Hx. rewrite sorted_set_elem in Hx. now apply Hrange. }
  intros p Hp. rewrite sorted_set_elem in Hp.
  apply list_elem_of_lookup in Hp as [i Hi].
  destruct (Hentry _ _ Hi) as [[_ ->]|[[_ ->]|[Hbi [->|[Hr Ho]]]]]; auto.
  right; right. exists (Z.of_nat i). auto.
Qed.

Lemma chunk_ranges_two x y (l : list Z) :
  chunk_ranges (x :: y :: l) = (x, y) :: chunk_ranges (y :: l).
Proof. reflexivity. Qed.

Lemma slice_append (c : bytes) x y z :
  0 <= x <= y -> y <= z -> slice c x y ++ slice c y z = slice c x z.
Proof.
  intros Hxy Hyz. unfold slice.
  replace (drop (Z.to_nat y) c)
    with (drop (Z.to_nat (y - x)) (drop (Z.to_nat x) c))
    by (rewrite drop_drop; f_equal; lia).
  rewrite take_take_drop. f_equal. lia.
Qed.

Lemma concat_slices (c : bytes) (l : list Z) : forall x hi,
  StronglySorted Z.lt (x :: l) -> 0 <= x -> last (x :: l) = Some hi ->
  concat (map (fun r => slice c (fst r) (snd r)) (chunk_ranges (x :: l)))
  = slice c x hi.
Proof.
  induction l as [|y l IH]; intros x hi Hs Hx Hlast.
  - injection Hlast as <-. unfold slice. now rewrite Z.sub_diag.
  - rewrite chunk_ranges_two. cbn [map concat fst snd].
    apply StronglySorted_inv in Hs as [Hs Hall].
    assert (Hxy : x < y) by now apply Forall_cons in Hall as [? _].
    rewrite (IH y hi Hs ltac:(lia) Hlast).
    apply slice_append; [lia|].
    assert (Hin : hi ∈ y :: l) by now apply last_Some_elem_of.
    apply elem_of_cons in Hin as [->|Hin]; [lia|].
    apply StronglySorted_inv in Hs as [_ Hall'].
    rewrite Forall_forall in Hall'. specialize (Hall' hi Hin). lia.
Qed.

Lemma chunk_ranges_elem (l : list Z) : forall x a b,
  StronglySorted Z.lt (x :: l) -> (a, b) ∈ chunk_ranges (x :: l) ->
  a < b /\ a ∈ x :: l /\ b ∈ x :: l.
Proof.
  induction l as [|y l IH]; intros x a b Hs Hin; [inversion Hin|].
  rewrite chunk_ranges_two in Hin.
  apply StronglySorted_inv in Hs as [Hs Hall].
  apply elem_of_cons in Hin as [[= -> ->]|Hin].
  - apply Forall_cons in Hall as [Hxy _].
    split; [exact Hxy|]. split; [left|right; left].
  - destruct (IH _ _ _ Hs Hin) as (Hab & Ha & Hb).
    split; [exact Hab|]. split; now right.
Qed.

Lemma read_chunk_slice (f : file) start end_ :
  0 <= start <= end_ ->
  read_chunk f start end_ = Ok (slice (content f) start end_).
Proof.
  intros H. unfold read_chunk, seek, read_int, read, slice.
  destruct (Z.ltb_spec start 0); [lia|]. cbn [bind].
  now destruct (Z.ltb_spec (end_ - start) 0); [lia|].
Qed.

(** X13. The chunks that the loop of [main] reads cover the file: for a
    positive chunk count, every pair [(start, end)] of consecutive
    boundaries has [0 <= start < end <= L], seeking to [start] and
    reading [end - start] bytes returns the bytes of the file from
    [start] up to [end] wherever the file position was, and these chunks
    in order, joined, are the whole file. *)
Theorem chunks_cover_file (f : file) (k : Z) (delim : bytes) :
  0 < k ->
  let c := content f in
  let L := Z.of_nat (length c) in
  exists bounds,
    find_chunk_boundaries f k delim = Ok bounds /\
    (forall start end_, (start, end_) ∈ chunk_ranges bounds ->
       0 <= start < end_ /\ end_ <= L /\
       forall position,
         read_chunk {| content := c; pos := position |} start end_
         = Ok (slice c start end_)) /\
    concat (map (fun r => slice c (fst r) (snd r)) (chunk_ranges bounds)) = c.
Proof.
  intros Hk c L.
  destruct (find_chunk_boundaries_sorted f k delim Hk)
    as (bounds & Hres & Hs & Hhead & Hlast & Hpts).
  fold c L in Hlast, Hpts.
  exists bounds. split; [exact Hres|].
  destruct bounds as [|x l]; [discriminate|]. injection Hhead as ->.
  assert (HL0 : 0 <= L) by (unfold L; lia).
  assert (Hcs : 0 <= L / k) by (apply Z.div_pos; lia).
  assert (Hrange : forall p, p ∈ 0 :: l -> 0 <= p <= L).
  { intros p Hp. destruct (Hpts p Hp) as [->|[->|(bi & Hbi & Hp' & _)]];
      [lia|lia|nia]. }
  split.
  - intros start end_ Hin.
    destruct (chunk_ranges_elem _ _ _ _ Hs Hin) as (Hlt & Ha & Hb).
    apply Hrange in Ha, Hb. split; [lia|]. split; [lia|].
    intros position. now rewrite read_chunk_slice by (cbn [content]; lia).
  - rewrite (concat_slices c l 0 L Hs ltac:(lia) Hlast).
    unfold slice, L. rewrite Z.sub_0_r, Nat2Z.id.
    change (Z.to_nat 0) with O. rewrite drop_0. apply firstn_all.
Qed.

(** An instance: two chunks of the sample source. *)
Lemma chunks_cover_file_witness :
  let c := content (open sample_source) in
  let L := Z.of_nat (length c) in
  exists bounds,
    find_chunk_boundaries (open sample_source) 2 [x3c; x3e] = Ok bounds /\
    (forall start end_, (start, end_) ∈ chunk_ranges bounds ->
       0 <= start < end_ /\ end_ <= L /\
       forall position,
         read_chunk {| content := c; pos := position |} start end_
         = Ok (slice c start end_)) /\
    concat (map (fun r => slice c (fst r) (snd r)) (chunk_ranges bounds)) = c.
Proof.
  apply (chunks_cover_file (open sample_source) 2 [x3c; x3e]). lia.
Defined.

(** [find] misses no occurrence: it answers an offset at or before any
    place where the needle is. *)
Lemma find_from_complete (needle : bytes) : forall (hay : bytes) i (k : nat),
  0 <= i -> take (length needle) (drop k hay) = needle ->
  find_from hay needle i <> -1 /\ find_from hay needle i <= i + Z.of_nat k.
Proof.
  induction hay as [|h rest IH]; intros i k Hi Hocc.
  - rewrite drop_nil, take_nil in Hocc. subst needle. simpl. lia.
  - cbn [find_from]. destruct (starts_with (h :: rest) needle) eqn:Hs; [lia|].
    destruct k as [|k].
    + assert (starts_with (h :: rest) needle = true) as Hs'
        by (apply starts_with_take; exact Hocc).
      congruence.
    + destruct (IH (i + 1) k ltac:(lia) Hocc) as [Hne Hle]. split; [exact Hne|lia].
Qed.

(** An occurrence in the file that lies inside the window read at [p]
    is one in the window. *)
Lemma window_has_occurrence (c delim : bytes) (p n q : nat) :
  take (length delim) (drop q c) = delim ->
  (p <= q)%nat -> (q + length delim <= p + n)%nat ->
  take (length delim) (drop (q - p) (take n (drop p c))) = delim.
Proof.
  intros Hocc Hpq Hin.
  assert (E : drop (q - p) (take n (drop p c))
              = take (n - (q - p)) (drop q c)).
  { replace (drop q c) with (drop (q - p) (drop p c))
      by (rewrite drop_drop; f_equal; lia).
    rewrite (take_drop_commute (drop p c) (n - (q - p)) (q - p)).
    now replace (q - p + (n - (q - p)))%nat with n by lia. }
  rewrite E, take_take, Nat.min_l by lia. exact Hocc.
Qed.

Lemma occurs_at_length (c delim : bytes) p :
  delim <> [] -> occurs_at c delim p ->
  p + Z.of_nat (length delim) <= Z.of_nat (length c).
Proof.
  intros Hd [Hp H]. apply (f_equal length) in H.
  rewrite length_take, length_drop in H.
  assert ((0 < length delim)%nat) by (destruct delim; [congruence|simpl; lia]).
  lia.
Qed.

(** The loop for one boundary does not go past an occurrence of the
    delimiter that lies inside one of its windows. *)
Lemma snap_loop_upper (delim : bytes) fuel : forall (f : file) ip p (j : nat) b f',
  delim <> [] -> 0 <= ip -> pos f = Z.to_nat ip ->
  occurs_at (content f) delim p ->
  ip + Z.of_nat mini_chunk_size * Z.of_nat j <= p ->
  p + Z.of_nat (length delim)
  <= ip + Z.of_nat mini_chunk_size * (Z.of_nat j + 1) ->
  snap_loop fuel f delim (Z.of_nat (length (content f))) ip = Ok (b, f') ->
  b <= p.
Proof.
  pose proof mini_chunk_size_pos as Hn.
  induction fuel as [|fuel IH]; intros f ip p j b f' Hd Hip Hpos Hocc Hlo Hhi H;
    [discriminate|].
  pose proof (occurs_at_length _ _ _ Hd Hocc) as Hend.
  assert (Hdl : (0 < length delim)%nat) by (destruct delim; [congruence|simpl; lia]).
  rewrite snap_loop_unfold in H. cbn zeta in H.
  set (mini := take mini_chunk_size (drop (pos f) (content f))) in *.
  assert (Hlen : length mini
                 = Nat.min mini_chunk_size (length (content f) - pos f)).
  { unfold mini. now rewrite length_take, length_drop. }
  destruct (decide (mini = [])) as [Hm|Hm].
  { assert (Hm0 : length mini = O) by now rewrite Hm. nia. }
  destruct (Z.eqb_spec (bytes_find mini delim) (-1)) as [Hf|Hf]; cbn [negb] in H.
  - destruct j as [|j].
    + exfalso. destruct Hocc as [Hp0 Hocc].
      destruct (find_from_complete delim mini 0 (Z.to_nat p - pos f)) as [Hne _];
        [lia| |now apply Hne].
      apply window_has_occurrence; [exact Hocc|lia|lia].
    + apply (IH {| content := content f; pos := (pos f + length mini)%nat |}
               (ip + Z.of_nat mini_chunk_size) p j b f'); cbn [content pos];
        try assumption; try lia.
  - injection H as <- _.
    destruct (find_from_found delim mini 0) as (r & Hr & Hlt & _);
      [lia|exact Hm|exact Hf|].
    unfold bytes_find. rewrite Hr.
    destruct j as [|j]; [|nia].
    destruct Hocc as [Hp0 Hocc].
    destruct (find_from_complete delim mini 0 (Z.to_nat p - pos f)) as [_ Hle].
    { lia. }
    { apply window_has_occurrence; [exact Hocc|lia|lia]. }
    rewrite Hr in Hle. lia.
Qed.

(** A property of what the loop for one boundary answers holds of every
    interior entry after the loop over the boundaries. *)
Lemma boundaries_loop_rel (c delim : bytes) fuel (R : Z -> Z -> Prop) :
  (length c < fuel)%nat ->
  (forall (f : file) g b f',
     content f = c -> pos f = Z.to_nat g -> 0 <= g <= Z.of_nat (length c) ->
     snap_loop fuel f delim (Z.of_nat (length c)) g = Ok (b, f') -> R g b) ->
  forall (bis : list Z) (f : file) (cb cb' : list Z) f',
    content f = c -> NoDup bis ->
    (forall bi, bi ∈ bis ->
       0 <= bi /\ exists g, cb !! (Z.to_nat bi) = Some g /\
                            0 <= g <= Z.of_nat (length c)) ->
    boundaries_loop fuel bis f delim (Z.of_nat (length c)) cb = Ok (cb', f') ->
    forall bi g, bi ∈ bis -> cb !! (Z.to_nat bi) = Some g ->
      exists b, cb' !! (Z.to_nat bi) = Some b /\ R g b.
Proof.
  intros Hfuel HR bis.
  induction bis as [|bi rest IH]; intros f cb cb' f' Hc Hnd Hbis Hloop bj gj Hbj Hgj;
    [inversion Hbj|].
  apply NoDup_cons in Hnd as [Hbi Hnd].
  destruct (Hbis bi) as (Hbi0 & g & Hg & Hgr); [left|].
  cbn [boundaries_loop] in Hloop. unfold get_item in Hloop.
  rewrite Hg in Hloop. cbn [bind] in Hloop.
  unfold seek in Hloop. destruct (Z.ltb_spec g 0); [lia|]. cbn [bind] in Hloop.
  destruct (snap_loop_spec delim fuel
              {| content := content f; pos := Z.to_nat g |} g)
    as (b & f2 & Hsnap & Hc2 & Hb); cbn [content pos]; try rewrite Hc; try lia.
  cbn [content pos] in Hsnap, Hc2, Hb. rewrite Hc in Hsnap, Hc2, Hb.
  rewrite Hc in Hloop. rewrite Hsnap in Hloop. cbn [bind] in Hloop.
  assert (Hrest : forall bk, bk ∈ rest ->
            0 <= bk /\ exists gk, <[Z.to_nat bi := b]> cb !! (Z.to_nat bk) = Some gk /\
                                  0 <= gk <= Z.of_nat (length c)).
  { intros bk Hbk. destruct (Hbis bk) as (Hbk0 & gk & Hgk & Hgkr); [now right|].
    split; [exact Hbk0|]. exists gk. split; [|exact Hgkr].
    rewrite list_lookup_insert_ne; [exact Hgk|].
    intros E. apply Hbi. now replace bi with bk by lia. }
  apply elem_of_cons in Hbj as [->|Hbj].
  - assert (gj = g) as -> by congruence.
    destruct (boundaries_loop_spec c delim fuel Hfuel rest f2
                (<[Z.to_nat bi := b]> cb) Hc2 Hnd Hrest)
      as (cb2 & f3 & Hloop2 & _ & Hcb2).
    rewrite Hloop2 in Hloop. injection Hloop as <- _.
    destruct (Hcb2 (Z.to_nat bi) b) as (b' & Hb' & Hcase).
    { apply list_lookup_insert_eq. now apply lookup_lt_Some in Hg. }
    rewrite Z2Nat.id in Hcase by lia.
    destruct Hcase as [[_ ->]|[Hin _]]; [|contradiction].
    exists b. split; [exact Hb'|].
    apply (HR {| content := c; pos := Z.to_nat g |} g b f2);
      cbn [content pos]; auto.
  - apply (IH f2 (<[Z.to_nat bi := b]> cb) cb' f' Hc2 Hnd Hrest Hloop bj gj Hbj).
    rewrite list_lookup_insert_ne; [exact Hgj|].
    intros E. apply Hbi. destruct (Hbis bj) as [Hbj0 _]; [now right|].
    now replace bi with bj by lia.
Qed.

(** X14. An occurrence of the delimiter that lies wholly inside one of
    the windows read from the guess of an interior boundary is not
    missed: for a positive chunk count and a non-empty delimiter, if the
    delimiter occurs at [p] and [p .. p + len(delimiter)) is inside the
    [j]-th window of 4096 bytes from the guess [g = bi * (L // k)], the
    returned boundaries hold the offset of an occurrence of the
    delimiter between [g] and [p]. *)
Theorem window_occurrence_is_found (f : file) (k : Z) (delim : bytes)
    (bi p : Z) (j : nat) :
  let c := content f in
  let L := Z.of_nat (length c) in
  let g := bi * (L / k) in
  0 < k -> delim <> [] -> 1 <= bi < k ->
  occurs_at c delim p ->
  g + Z.of_nat mini_chunk_size * Z.of_nat j <= p ->
  p + Z.of_nat (length delim)
  <= g + Z.of_nat mini_chunk_size * (Z.of_nat j + 1) ->
  exists bounds b,
    find_chunk_boundaries f k delim = Ok bounds /\
    b ∈ bounds /\ g <= b <= p /\ occurs_at c delim b.
Proof.
  intros c L g Hk Hd Hbi Hocc Hlo Hhi.
  destruct (find_chunk_boundaries_entries f k delim Hk)
    as (cb & f' & Hloop & Hres & Hlen & Hentry).
  fold c L in Hloop, Hres, Hentry.
  assert (HL0 : 0 <= L) by (unfold L; lia).
  assert (Hcs : 0 <= L / k) by (apply Z.div_pos; lia).
  assert (Hkcs : k * (L / k) <= L) by (apply Z.mul_div_le; lia).
  pose proof (occurs_at_length _ _ _ Hd Hocc) as Hend. fold L in Hend.
  assert (Hdl : (0 < length delim)%nat) by (destruct delim; [congruence|simpl; lia]).
  destruct (boundaries_loop_rel c delim (S (length c))
              (fun g b => 0 <= g -> forall p (j : nat),
                 occurs_at c delim p ->
                 g + Z.of_nat mini_chunk_size * Z.of_nat j <= p ->
                 p + Z.of_nat (length delim)
                 <= g + Z.of_nat mini_chunk_size * (Z.of_nat j + 1) ->
                 b <= p)
              ltac:(lia)) with (bis := py_range 1 k)
              (f := {| content := c; pos := 0 |})
              (cb := naive_boundaries L k) (cb' := cb) (f' := f')
              (bi := bi) (g := g)
    as (b & Hb & Hrel).
  - intros f0 g0 b0 f0' Hc0 Hpos0 Hg0 Hsnap0 _ p0 j0 Hocc0 Hlo0 Hhi0.
    apply (snap_loop_upper delim (S (length c)) f0 g0 p0 j0 b0 f0');
      rewrite ?Hc0; auto; lia.
  - reflexivity.
  - apply NoDup_seqZ.
  - intros bk Hbk. apply elem_of_seqZ in Hbk. split; [lia|].
    exists (bk * (L / k)). split; [|fold L; nia].
    rewrite naive_boundaries_guess by lia. do 2 f_equal. lia.
  - exact Hloop.
  - apply elem_of_seqZ. lia.
  - rewrite naive_boundaries_guess by lia. unfold g. do 2 f_equal. lia.
  - assert (Hbp : b <= p) by (apply (Hrel ltac:(unfold g; nia) p j); auto).
    exists (sorted_set cb), b. split; [exact Hres|].
    split; [rewrite sorted_set_elem; now apply list_elem_of_lookup_2 in Hb|].
    destruct (Hentry _ _ Hb) as [[E _]|[[E _]|[_ Hs]]]; try lia.
    rewrite Z2Nat.id in Hs by lia. fold g in Hs.
    destruct Hs as [->|[Hr Ho]]; [lia|]. split; [lia|exact Ho].
Qed.

(** An instance: the second [<>] of the sample source, inside the first
    window from the guess 6. *)
Lemma window_occurrence_is_found_witness :
  exists bounds b,
    find_chunk_boundaries (open sample_source) 2 [x3c; x3e] = Ok bounds /\
    b ∈ bounds /\
    1 * (Z.of_nat (length (content (open sample_source))) / 2) <= b <= 8 /\
    occurs_at (content (open sample_source)) [x3c; x3e] b.
Proof.
  apply (window_occurrence_is_found (open sample_source) 2 [x3c; x3e] 1 8 O).
  - lia.
  - discriminate.
  - lia.
  - split; [lia|reflexivity].
  - vm_compute. discriminate.
  - vm_compute. discriminate.
Defined.

Lemma two_point_list (l : list Z) (L : Z) :
  StronglySorted Z.lt l -> head l = Some 0 -> last l = Some L ->
  (forall p, p ∈ l -> p = 0 \/ p = L) ->
  l = if L =? 0 then [0] else [0; L].
Proof.
  intros Hs Hhead Hlast Hpts.
  destruct l as [|x rest]; [discriminate|]. injection Hhead as ->.
  apply StronglySorted_inv in Hs as [Hs Hall].
  destruct rest as [|y rest].
  - injection Hlast as <-. reflexivity.
  - apply Forall_cons in Hall as [Hy _].
    destruct (Hpts y ltac:(right; left)) as [E|E]; [lia|]. subst y.
    destruct (Z.eqb_spec L 0); [lia|].
    destruct rest as [|z rest]; [reflexivity|].
    apply StronglySorted_inv in Hs as [_ Hall'].
    apply Forall_cons in Hall' as [Hz _].
    destruct (Hpts z ltac:(right; right; left)); lia.
Qed.

(** X15. If the delimiter occurs nowhere in the file from the first
    guess [L // k] on, the finder with a positive chunk count returns
    the two ends only, [0, L] (or [0] for an empty file): the whole file
    is one chunk. *)
Theorem no_delimiter_single_chunk (f : file) (k : Z) (delim : bytes) :
  let c := content f in
  let L := Z.of_nat (length c) in
  0 < k ->
  (forall p, L / k <= p -> ~ occurs_at c delim p) ->
  find_chunk_boundaries f k delim = Ok (if L =? 0 then [0] else [0; L]).
Proof.
  intros c L Hk Hnone.
  destruct (find_chunk_boundaries_sorted f k delim Hk)
    as (bounds & Hres & Hs & Hhead & Hlast & Hpts).
  fold c L in Hlast, Hpts. rewrite Hres. f_equal.
  apply two_point_list; auto.
  intros p Hp. destruct (Hpts p Hp) as [->|[->|(bi & Hbi & Hp' & Ho)]]; auto.
  exfalso. apply (Hnone p); [|exact Ho].
  assert (Hcs : 0 <= L / k) by (apply Z.div_pos; unfold L; lia). nia.
Qed.

(** An instance: four bytes [abcd], two chunks, the delimiter [X]. *)
Lemma no_delimiter_single_chunk_witness :
  find_chunk_boundaries (open [x61; x62; x63; x64]) 2 [x58]
  = Ok (if Z.of_nat (length (content (open [x61; x62; x63; x64]))) =? 0
        then [0]
        else [0; Z.of_nat (length (content (open [x61; x62; x63; x64])))]).
Proof.
  apply (no_delimiter_single_chunk (open [x61; x62; x63; x64]) 2 [x58]).
  - lia.
  - intros p _ [_ H]. cbn [open content] in H.
    destruct (Z.to_nat p) as [|[|[|[|n]]]]; simpl in H;
      rewrite ?drop_nil in H; discriminate H.
Defined.
